(** * miepy: the multi-particle interaction matrices and their solve

    A shallow embedding of [miepy/interactions.py] together with the part of
    the package interface ([miepy/__init__.py], [miepy/vsh/__init__.py]) that
    its functions resolve at call time, and of [levi_civita] in
    [miepy/forces.py].

    - Python exceptions are the left summand of [result]; a function that
      calls the translation operator runs in the writer monad [M], whose log
      records every call of [vsh_translation] in order.
    - numpy arrays are a shape and a flat row-major buffer ([ndarray]);
      subscripts are Python integers ([Z]) with numpy's wrap-around of
      negative subscripts and its [IndexError] out of range.
    - complex scalars are the elements of a commutative ring ([Numerics]):
      rounding, infinities and NaN of IEEE arithmetic are not modelled, so
      a statement that needs a product with zero to be zero is a statement
      about finite values and says so.
    - the package comes in two forms: [miepy_pkg], the namespaces of the
      two [__init__.py] files as they are, on which every assembler raises
      [AttributeError] at its first lookup, and any package that binds the
      names the assemblers look up ([binds_helpers]), on which the loops
      run; a statement about the loops says which one it is about.
    - attribute access on a module goes through its namespace, a finite map
      from names to objects ([pyobj]), and raises [AttributeError] for a name
      the namespace does not bind. *)

From Stdlib Require Import ZArith List Lia Ring ZArithRing.
From stdpp Require Import base option list gmap strings.

#[local] Set Warnings "-register-all".
#[local] Open Scope Z_scope.

(** ** Exceptions and results *)

(** The exception classes that occur: Python's and numpy's own, and the three
    of the specification's taxonomy ([ConfigurationError], [ShapeError],
    [SingularSystemError]). *)
Inductive exn : Type :=
| AttributeError
| IndexError
| TypeError
| ValueError
| LinAlgError
| ConfigurationError
| ShapeError
| SingularSystemError.

#[global] Instance exn_eq_dec : EqDecision exn.
Proof. solve_decision. Defined.

Definition result (A : Type) : Type := (exn + A)%type.

Definition OK {A : Type} (x : A) : result A := inr x.
Definition Err {A : Type} (e : exn) : result A := inl e.

(** Whether a result is a value. *)
Definition is_OK {A : Type} (r : result A) : bool :=
  match r with
  | inr _ => true
  | inl _ => false
  end.

Definition rbind {A B : Type} (r : result A) (f : A -> result B) : result B :=
  match r with
  | inl e => inl e
  | inr x => f x
  end.

Declare Scope result_scope.
Delimit Scope result_scope with res.
Notation "'let!' x ':=' r 'in' k" := (rbind r (fun x => k))
  (at level 10, x name, r at level 100, k at level 200) : result_scope.

(** ** Numbers

    [C] stands for numpy's complex scalars, [Rl] for the real coordinates of
    the positions and [K] for the wavenumber.  The real functions used for the
    separation vector ([np.linalg.norm], division, [np.arccos],
    [np.arctan2]) are total: numpy's floating division by zero gives a
    non-finite value and raises nothing. *)
Class Numerics : Type := {
  C : Type;
  c0 : C;
  c1 : C;
  cadd : C -> C -> C;
  cmul : C -> C -> C;
  csub : C -> C -> C;
  copp : C -> C;
  C_ring : ring_theory c0 c1 cadd cmul csub copp (@eq C);
  Rl : Type;
  rsub : Rl -> Rl -> Rl;
  rdiv : Rl -> Rl -> Rl;
  norm3 : Rl -> Rl -> Rl -> Rl;
  arccos : Rl -> Rl;
  arctan2 : Rl -> Rl -> Rl;
  K : Type
}.

(** The kind of a translation, [miepy.VSH_mode].
    Modelled from the spec: the enumeration [VSH_mode] is declared in
    [miepy/vsh/vsh_functions.py], which is not among the sources; the
    assemblers name its member [outgoing] (the outgoing-to-incident
    translation of section 4.2). *)
Inductive VSH_mode : Type :=
| outgoing
| incident.

(** ** The mode index enumerator

    Modelled from the spec: [miepy/vsh/mode_indices.py] is not among the
    sources.  Section 4.1: the modes [(r, n, m)] for [n] from 1 to [lmax] and
    [m] from [-n] to [n], ascending [n], then ascending [m]; [rmax] is
    [lmax (lmax + 2)]; [rmax_to_Lmax] fails with a [ConfigurationError] for
    a count that no [lmax] gives.  The linear index counts from 0, as the
    code needs it: every [r] subscripts an axis of length [rmax]
    ([interaction_matrix[i,0,r,j,0,s]], [p[r]]), and [forces.torque] computes
    the index of the mode [(n, m + 1)] as [n**2 + n - 1 + m + 1]. *)
Definition mode_index (n m : Z) : Z := n * n + n - 1 + m.

Definition mode_indices (lmax : Z) : list (Z * Z * Z) :=
  flat_map (fun n => map (fun m => (mode_index n m, n, m))
                         (seqZ (- n) (2 * n + 1)))
           (seqZ 1 lmax).

Definition Lmax_to_rmax (lmax : Z) : result Z := OK (lmax * (lmax + 2)).

Definition rmax_to_Lmax (rmax : Z) : result Z :=
  let lmax := Z.sqrt (rmax + 1) - 1 in
  if (0 <=? rmax) && (lmax * (lmax + 2) =? rmax)
  then OK lmax else Err ConfigurationError.

(** ** numpy arrays *)

Section Arrays.
Context {num : Numerics}.

Record ndarray : Type := NdArray {
  shape : list nat;
  data : list C
}.

Definition size_of (sh : list nat) : nat := fold_right Nat.mul 1%nat sh.

(** The buffer has one cell per index. *)
Definition wf (a : ndarray) : Prop := length (data a) = size_of (shape a).

(** One subscript on an axis of length [dim]: numpy counts a negative
    subscript from the end and raises [IndexError] outside
    [-dim .. dim - 1]. *)
Definition norm_index (dim : nat) (k : Z) : result nat :=
  if (0 <=? k) && (k <? Z.of_nat dim) then OK (Z.to_nat k)
  else if (- Z.of_nat dim <=? k) && (k <? 0) then OK (Z.to_nat (k + Z.of_nat dim))
  else Err IndexError.

(** A full subscript: one integer per axis. *)
Fixpoint norm_indices (sh : list nat) (idx : list Z) : result (list nat) :=
  match sh, idx with
  | [], [] => OK []
  | d :: sh', k :: idx' =>
      (let! i := norm_index d k in
       let! l := norm_indices sh' idx' in
       OK (i :: l))%res
  | _, _ => Err IndexError
  end.

(** Row-major position of an index in the buffer, and its inverse. *)
Fixpoint ravel (sh : list nat) (l : list nat) : nat :=
  match sh, l with
  | _ :: sh', i :: l' => (i * size_of sh' + ravel sh' l')%nat
  | _, _ => 0%nat
  end.

Fixpoint unravel (sh : list nat) (p : nat) : list nat :=
  match sh with
  | [] => []
  | _ :: sh' => (p / size_of sh')%nat :: unravel sh' (p mod size_of sh')%nat
  end.

(** [a[idx]], the read of one cell: one subscript per axis.  (With fewer
    subscripts than axes numpy returns a sub-array; the assemblers subscript
    [a] with three integers, and every statement below is about
    coefficients of three axes, for which the read is that of a cell.  The
    model answers a subscript of any other length with [IndexError].) *)
Definition getitem (a : ndarray) (idx : list Z) : result C :=
  (let! l := norm_indices (shape a) idx in
   match data a !! ravel (shape a) l with
   | Some x => OK x
   | None => Err IndexError
   end)%res.

(** [a[idx] = v] *)
Definition setitem (a : ndarray) (idx : list Z) (v : C) : result ndarray :=
  (let! l := norm_indices (shape a) idx in
   OK (NdArray (shape a) (<[ravel (shape a) l := v]> (data a))))%res.

(** An index with one entry per axis, each below the axis's length. *)
Definition in_range (sh l : list nat) : Prop := Forall2 (fun d i => (i < d)%nat) sh l.

(** The entry at an index that is known to be in range. *)
Definition entry (a : ndarray) (l : list nat) : C :=
  default c0 (data a !! ravel (shape a) l).

(** The array after [a[l] = v], for an index in range. *)
Definition update (a : ndarray) (l : list nat) (v : C) : ndarray :=
  NdArray (shape a) (<[ravel (shape a) l := v]> (data a)).

(** The array of the given shape whose entry at [l] is [f l]. *)
Definition tabulate (sh : list nat) (f : list nat -> C) : ndarray :=
  NdArray sh (map (fun p => f (unravel sh p)) (seq 0 (size_of sh))).

(** [np.zeros(shape, dtype=complex)] *)
Definition np_zeros (sh : list nat) : ndarray :=
  NdArray sh (replicate (size_of sh) c0).

(** numpy's broadcasting of two shapes of one rank: equal lengths, or one
    of them 1. *)
Definition broadcast_dim (d1 d2 : nat) : result nat :=
  if decide (d1 = d2) then OK d1
  else if decide (d1 = 1%nat) then OK d2
  else if decide (d2 = 1%nat) then OK d1
  else Err ValueError.

Fixpoint broadcast_shape (s1 s2 : list nat) : result (list nat) :=
  match s1, s2 with
  | [], [] => OK []
  | d1 :: s1', d2 :: s2' =>
      (let! d := broadcast_dim d1 d2 in
       let! s := broadcast_shape s1' s2' in
       OK (d :: s))%res
  | _, _ => Err ValueError
  end.

(** The index of the operand's cell that a broadcast index reads: an axis of
    length 1 is read at 0. *)
Fixpoint clamp (sh : list nat) (l : list nat) : list nat :=
  match sh, l with
  | d :: sh', i :: l' => (if decide (d = 1%nat) then 0%nat else i) :: clamp sh' l'
  | _, _ => []
  end.

(** [a + b] *)
Definition np_add (a b : ndarray) : result ndarray :=
  (let! sh := broadcast_shape (shape a) (shape b) in
   OK (tabulate sh (fun l => cadd (entry a (clamp (shape a) l))
                                  (entry b (clamp (shape b) l)))))%res.

(** [(-1)**k] for a Python integer [k]: 1 for even [k] and -1 for odd [k],
    also for a negative exponent (where Python gives the float). *)
Definition sign_pow (k : Z) : C := if Z.even k then c1 else copp c1.

(** The sum of [f] over a list, accumulated from the left. *)
Definition csum {A : Type} (f : A -> C) (l : list A) : C :=
  fold_left (fun acc x => cadd acc (f x)) l c0.

End Arrays.

(** ** Calls of the translation operator, and the package interface *)

Section Interactions.
Context {num : Numerics}.

(** The arguments of one call
    [vsh_translation(m, n, u, v, r, theta, phi, k, mode)]. *)
Record call : Type := Call {
  call_m : Z;
  call_n : Z;
  call_u : Z;
  call_v : Z;
  call_r : Rl;
  call_theta : Rl;
  call_phi : Rl;
  call_k : K;
  call_mode : VSH_mode
}.

(** The translation operator, [miepy/vsh/vsh_translation.py], is not among
    the sources: a function from its nine arguments to the pair
    [(A, B)]. *)
Definition translation : Type :=
  Z -> Z -> Z -> Z -> Rl -> Rl -> Rl -> K -> VSH_mode -> C * C.

(** A computation that may call the translation operator: the log of its
    calls so far, and a value or the exception that ended it. *)
Definition M (A : Type) : Type := (list call * result A)%type.

Definition mret {A : Type} (x : A) : M A := ([], OK x).

Definition mbind {A B : Type} (c : M A) (f : A -> M B) : M B :=
  match c with
  | (log, inl e) => (log, inl e)
  | (log, inr x) => let (log', r) := f x in (log ++ log', r)
  end.

Definition lift {A : Type} (r : result A) : M A := ([], r).

Definition calls {A : Type} (c : M A) : list call := fst c.
Definition outcome {A : Type} (c : M A) : result A := snd c.

(** [for x in l: s = body(x, s)] *)
Fixpoint for_each {A S : Type} (l : list A) (body : A -> S -> M S) (s : S) : M S :=
  match l with
  | [] => mret s
  | x :: l' => mbind (body x s) (for_each l' body)
  end.

(** Python objects that a module of the package binds: modules, the
    enumerator's functions, the translation operator, the enumeration
    [VSH_mode] and its members; everything else is opaque. *)
Inductive pyobj : Type :=
| PyModule (ns : gmap string pyobj)
| PyIntFun (f : Z -> result Z)
| PyModeGen (f : Z -> list (Z * Z * Z))
| PyTranslate (f : translation)
| PyEnumClass (members : gmap string pyobj)
| PyEnumMember (m : VSH_mode)
| PyOpaque.

(** [o.name] *)
Definition getattr (o : pyobj) (name : string) : result pyobj :=
  match o with
  | PyModule ns | PyEnumClass ns =>
      match ns !! name with
      | Some x => OK x
      | None => Err AttributeError
      end
  | _ => Err AttributeError
  end.

(** Calling an object with one integer, for an integer. *)
Definition call_int (o : pyobj) (x : Z) : result Z :=
  match o with
  | PyIntFun f => f x
  | _ => Err TypeError
  end.

(** Calling an object with [lmax], for the sequence of modes. *)
Definition call_modes (o : pyobj) (lmax : Z) : result (list (Z * Z * Z)) :=
  match o with
  | PyModeGen f => OK (f lmax)
  | _ => Err TypeError
  end.

Definition as_translation (o : pyobj) : result translation :=
  match o with
  | PyTranslate f => OK f
  | _ => Err TypeError
  end.

Definition as_mode (o : pyobj) : result VSH_mode :=
  match o with
  | PyEnumMember m => OK m
  | _ => Err TypeError
  end.

(** The call itself: it is logged, and returns the operator's pair. *)
Definition translate (f : translation) (m n u v : Z) (r theta phi : Rl)
    (k : K) (mode : VSH_mode) : M (C * C) :=
  ([Call m n u v r theta phi k mode], OK (f m n u v r theta phi k mode)).

(** [miepy/vsh/__init__.py]: the names its import statements bind. *)
Definition miepy_vsh_names (vsh_translation : translation) : gmap string pyobj :=
  list_to_map
    [ ("special", PyOpaque);
      ("rmax_to_Lmax", PyIntFun rmax_to_Lmax);
      ("Lmax_to_rmax", PyIntFun Lmax_to_rmax);
      ("mode_indices", PyModeGen mode_indices);
      ("vsh_functions", PyOpaque);
      ("Emn", PyOpaque);
      ("VSH_mode", PyEnumClass (list_to_map
         [ ("outgoing", PyEnumMember outgoing);
           ("incident", PyEnumMember incident) ]));
      ("get_zn", PyOpaque);
      ("VSH", PyOpaque);
      ("vsh_normalization_values", PyOpaque);
      ("vsh_translation", PyTranslate vsh_translation);
      ("expansion", PyOpaque);
      ("expand_E", PyOpaque);
      ("expand_E_far", PyOpaque);
      ("expand_H", PyOpaque);
      ("expand_H_far", PyOpaque);
      ("decomposition", PyOpaque);
      ("near_field_point_matching", PyOpaque);
      ("far_field_point_matching", PyOpaque);
      ("integral_project_fields_onto", PyOpaque);
      ("integral_project_fields", PyOpaque);
      ("integral_project_source", PyOpaque);
      ("cluster_coefficients", PyOpaque);
      ("misc", PyOpaque) ].

Definition miepy_vsh (vsh_translation : translation) : pyobj :=
  PyModule (miepy_vsh_names vsh_translation).

(** [miepy/__init__.py]: the names its import statements bind. *)
Definition miepy_names (vsh_translation : translation) : gmap string pyobj :=
  list_to_map
    [ ("sources", PyOpaque);
      ("scattering", PyOpaque);
      ("materials", PyOpaque);
      ("vsh", miepy_vsh vsh_translation);
      ("forces", PyOpaque);
      ("mie_sphere", PyOpaque);
      ("single_mie_sphere", PyOpaque);
      ("mie_core_shell", PyOpaque);
      ("single_mie_core_shell", PyOpaque);
      ("constant_material", PyOpaque);
      ("function_material", PyOpaque);
      ("data_material", PyOpaque);
      ("spheres", PyOpaque);
      ("gmt", PyOpaque);
      ("scattering_per_multipole", PyOpaque);
      ("absorbption_per_multipole", PyOpaque);
      ("extinction_per_multipole", PyOpaque);
      ("cross_sections", PyOpaque);
      ("interactions", PyOpaque);
      ("flux", PyOpaque);
      ("cpp", PyOpaque) ].

Definition miepy_pkg (vsh_translation : translation) : pyobj :=
  PyModule (miepy_names vsh_translation).

(** The package as the functions of [interactions.py] expect it: with
    [lmax_to_rmax] and [rmax_to_lmax] bound in [miepy.vsh] to the
    enumerator's [Lmax_to_rmax] and [rmax_to_Lmax], and [mode_indices] and
    [VSH_mode] bound in [miepy] to the objects of these names in
    [miepy.vsh]. *)
Definition miepy_with_helpers (vsh_translation : translation) : pyobj :=
  PyModule
    (<["mode_indices" := PyModeGen mode_indices]>
     (<["VSH_mode" := PyEnumClass (list_to_map
          [ ("outgoing", PyEnumMember outgoing);
            ("incident", PyEnumMember incident) ])]>
     (<["vsh" := PyModule
          (<["lmax_to_rmax" := PyIntFun Lmax_to_rmax]>
           (<["rmax_to_lmax" := PyIntFun rmax_to_Lmax]>
            (miepy_vsh_names vsh_translation)))]>
      (miepy_names vsh_translation)))).

(** The package with the two names repaired in [miepy.vsh] only:
    [lmax_to_rmax] and [rmax_to_lmax] are bound there, [mode_indices] and
    [VSH_mode] are still not bound in [miepy]. *)
Definition miepy_vsh_with_helpers (vsh_translation : translation) : pyobj :=
  PyModule
    (<["lmax_to_rmax" := PyIntFun Lmax_to_rmax]>
     (<["rmax_to_lmax" := PyIntFun rmax_to_Lmax]>
      (miepy_vsh_names vsh_translation))).

Definition miepy_with_vsh_helpers (vsh_translation : translation) : pyobj :=
  PyModule
    (<["vsh" := miepy_vsh_with_helpers vsh_translation]>
     (miepy_names vsh_translation)).

(** What the functions of [interactions.py] need of the interface: each
    name they look up is bound, to the enumerator's functions, the
    translation operator [f] and the member [outgoing]. *)
Definition binds_helpers (miepy : pyobj) (f : translation) : Prop :=
  exists vsh cls : pyobj,
    getattr miepy "vsh" = OK vsh /\
    getattr vsh "lmax_to_rmax" = OK (PyIntFun Lmax_to_rmax) /\
    getattr vsh "rmax_to_lmax" = OK (PyIntFun rmax_to_Lmax) /\
    getattr vsh "vsh_translation" = OK (PyTranslate f) /\
    getattr miepy "mode_indices" = OK (PyModeGen mode_indices) /\
    getattr miepy "VSH_mode" = OK cls /\
    getattr cls "outgoing" = OK (PyEnumMember outgoing).

End Interactions.

Declare Scope M_scope.
Delimit Scope M_scope with M.
Notation "'let!' x ':=' c 'in' k" := (mbind c (fun x => k))
  (at level 10, x name, c at level 100, k at level 200) : M_scope.
Notation "'let!' ' p ':=' c 'in' k" := (mbind c (fun x => match x with p => k end))
  (at level 10, p pattern, c at level 100, k at level 200) : M_scope.

(** ** [miepy/interactions.py] *)

Section Assemblers.
Context {num : Numerics}.

(** [np.linalg.tensorsolve], numpy's routine: not code of the package. *)
Variable tensorsolve : ndarray -> ndarray -> result ndarray.

(** [a.shape[-1]] *)
Definition shape_last (a : ndarray) : result nat :=
  match last (shape a) with
  | Some d => OK d
  | None => Err IndexError
  end.

(** An integer used as the length of an axis by [np.zeros]. *)
Definition to_dim (x : Z) : result nat :=
  if 0 <=? x then OK (Z.to_nat x) else Err ValueError.

(** [(Nparticles, 2, rmax, Nparticles, 2, rmax)] *)
Definition cluster_shape (Nparticles rmax : nat) : list nat :=
  [Nparticles; 2%nat; rmax; Nparticles; 2%nat; rmax].

(** [identity = np.zeros(shape); np.einsum('airair->air', identity)[...] = 1]:
    the view is the diagonal, which is set to 1. *)
Definition identity_tensor (Nparticles rmax : nat) : ndarray :=
  tabulate (cluster_shape Nparticles rmax)
    (fun l => match l with
              | [i; a; r; j; c; s] =>
                  if decide (i = j /\ a = c /\ r = s) then c1 else c0
              | _ => c0
              end).

(** [positions[i]] for [positions[N,3]] *)
Definition row (positions : list (Rl * Rl * Rl)) (i : nat) : result (Rl * Rl * Rl) :=
  match positions !! i with
  | Some p => OK p
  | None => Err IndexError
  end.

(** [dji = pi - pj; r_ji = np.linalg.norm(dji);
    theta_ji = np.arccos(dji[2]/r_ji); phi_ji = np.arctan2(dji[1], dji[0])] *)
Definition separation (pi pj : Rl * Rl * Rl) : Rl * Rl * Rl :=
  let '(xi, yi, zi) := pi in
  let '(xj, yj, zj) := pj in
  let dx := rsub xi xj in
  let dy := rsub yi yj in
  let dz := rsub zi zj in
  let r_ji := norm3 dx dy dz in
  (r_ji, arccos (rdiv dz r_ji), arctan2 dy dx).

(** One assignment [interaction_matrix[idx] = rhs]: the right-hand side is
    evaluated first, then the entry is stored. *)
Definition stmt : Type := (list Z * result C)%type.

Definition assign (t : ndarray) (st : stmt) : result ndarray :=
  (let! v := snd st in setitem t (fst st) v)%res.

Fixpoint run_stmts (sts : list stmt) (t : ndarray) : result ndarray :=
  match sts with
  | [] => OK t
  | st :: sts' => (let! t' := assign t st in run_stmts sts' t')%res
  end.

(** [x*a[idx]] *)
Definition times (x : C) (a : ndarray) (idx : list Z) : result C :=
  (let! y := getitem a idx in OK (cmul x y))%res.

(** Lines 42 to 60 of [sphere_cluster_tmatrix]. *)
Definition sphere_stmts (a : ndarray) (i j r n m s v u : Z) (A_transfer B_transfer : C)
    : list stmt :=
  [ ([i; 0; r; j; 0; s], times A_transfer a [j; 0; v - 1]);
    ([i; 0; r; j; 1; s], times B_transfer a [j; 1; v - 1]);
    ([i; 1; r; j; 0; s], times B_transfer a [j; 0; v - 1]);
    ([i; 1; r; j; 1; s], times A_transfer a [j; 1; v - 1]);

    ([j; 0; r; i; 0; s], times (cmul (sign_pow (n + v)) A_transfer) a [i; 0; v - 1]);
    ([j; 0; r; i; 1; s], times (cmul (sign_pow (n + v + 1)) B_transfer) a [i; 1; v - 1]);
    ([j; 1; r; i; 0; s], times (cmul (sign_pow (n + v + 1)) B_transfer) a [i; 0; v - 1]);
    ([j; 1; r; i; 1; s], times (cmul (sign_pow (n + v)) A_transfer) a [i; 1; v - 1]);

    ([i; 0; s - 2 * u; j; 0; r - 2 * m], times (cmul (sign_pow (m + u)) A_transfer) a [j; 0; n - 1]);
    ([i; 0; s - 2 * u; j; 1; r - 2 * m], times (cmul (sign_pow (m + u + 1)) B_transfer) a [j; 1; n - 1]);
    ([i; 1; s - 2 * u; j; 0; r - 2 * m], times (cmul (sign_pow (m + u + 1)) B_transfer) a [j; 0; n - 1]);
    ([i; 1; s - 2 * u; j; 1; r - 2 * m], times (cmul (sign_pow (m + u)) A_transfer) a [j; 1; n - 1]);

    ([j; 0; s - 2 * u; i; 0; r - 2 * m], times (cmul (sign_pow (m + u + n + v)) A_transfer) a [i; 0; n - 1]);
    ([j; 0; s - 2 * u; i; 1; r - 2 * m], times (cmul (sign_pow (m + u + n + v)) B_transfer) a [i; 1; n - 1]);
    ([j; 1; s - 2 * u; i; 0; r - 2 * m], times (cmul (sign_pow (m + u + n + v)) B_transfer) a [i; 0; n - 1]);
    ([j; 1; s - 2 * u; i; 1; r - 2 * m], times (cmul (sign_pow (m + u + n + v)) A_transfer) a [i; 1; n - 1]) ].

(** Lines 115 to 133 of [particle_cluster_tmatrix]. *)
Definition particle_stmts (i j r n m s v u : Z) (A_transfer B_transfer : C) : list stmt :=
  [ ([i; 0; r; j; 0; s], OK A_transfer);
    ([i; 0; r; j; 1; s], OK B_transfer);
    ([i; 1; r; j; 0; s], OK B_transfer);
    ([i; 1; r; j; 1; s], OK A_transfer);

    ([j; 0; r; i; 0; s], OK (cmul (sign_pow (n + v)) A_transfer));
    ([j; 0; r; i; 1; s], OK (cmul (sign_pow (n + v + 1)) B_transfer));
    ([j; 1; r; i; 0; s], OK (cmul (sign_pow (n + v + 1)) B_transfer));
    ([j; 1; r; i; 1; s], OK (cmul (sign_pow (n + v)) A_transfer));

    ([i; 0; s - 2 * u; j; 0; r - 2 * m], OK (cmul (sign_pow (m + u)) A_transfer));
    ([i; 0; s - 2 * u; j; 1; r - 2 * m], OK (cmul (sign_pow (m + u + 1)) B_transfer));
    ([i; 1; s - 2 * u; j; 0; r - 2 * m], OK (cmul (sign_pow (m + u + 1)) B_transfer));
    ([i; 1; s - 2 * u; j; 1; r - 2 * m], OK (cmul (sign_pow (m + u)) A_transfer));

    ([j; 0; s - 2 * u; i; 0; r - 2 * m], OK (cmul (sign_pow (m + u + n + v)) A_transfer));
    ([j; 0; s - 2 * u; i; 1; r - 2 * m], OK (cmul (sign_pow (m + u + n + v)) B_transfer));
    ([j; 1; s - 2 * u; i; 0; r - 2 * m], OK (cmul (sign_pow (m + u + n + v)) B_transfer));
    ([j; 1; s - 2 * u; i; 1; r - 2 * m], OK (cmul (sign_pow (m + u + n + v)) A_transfer)) ].

(** [miepy.mode_indices(lmax)] *)
Definition resolve_modes (miepy : pyobj) (lmax : Z) : result (list (Z * Z * Z)) :=
  (let! g := getattr miepy "mode_indices" in call_modes g lmax)%res.

(** The callee [miepy.vsh.vsh_translation] and the last argument
    [miepy.VSH_mode.outgoing], looked up in this order before the call. *)
Definition resolve_translation (miepy : pyobj) : result (translation * VSH_mode) :=
  (let! vsh := getattr miepy "vsh" in
   let! callee := getattr vsh "vsh_translation" in
   let! cls := getattr miepy "VSH_mode" in
   let! member := getattr cls "outgoing" in
   let! f := as_translation callee in
   let! mode := as_mode member in
   OK (f, mode))%res.

(** The body of the inner mode loop: the guard with its [continue], the
    call of the translation operator and the sixteen assignments, which
    are [stmts i j r n m s v u A_transfer B_transfer]. *)
Definition mode_pair (miepy : pyobj) (k : K) (sep : Rl * Rl * Rl)
    (stmts : Z -> Z -> Z -> Z -> Z -> Z -> C -> C -> list stmt)
    (rnm svu : Z * Z * Z) (interaction_matrix : ndarray) : M ndarray :=
  let '(r, n, m) := rnm in
  let '(s, v, u) := svu in
  let '(r_ji, theta_ji, phi_ji) := sep in
  if s - 2 * u <? r then mret interaction_matrix
  else
    (let! fm := lift (resolve_translation miepy) in
     let! AB := translate (fst fm) m n u v r_ji theta_ji phi_ji k (snd fm) in
     lift (run_stmts (stmts r n m s v u (fst AB) (snd AB)) interaction_matrix))%M.

(** The two mode loops for one pair of particles. *)
Definition mode_loops (miepy : pyobj) (lmax : Z) (k : K) (sep : Rl * Rl * Rl)
    (stmts : Z -> Z -> Z -> Z -> Z -> Z -> C -> C -> list stmt)
    (interaction_matrix : ndarray) : M ndarray :=
  (let! outer := lift (resolve_modes miepy lmax) in
   for_each outer (fun rnm im =>
     let! inner := lift (resolve_modes miepy lmax) in
     for_each inner (mode_pair miepy k sep stmts rnm) im)
   interaction_matrix)%M.

(** The loops over the pairs of particles [i < j], the same in both
    assemblers but for the assignments. *)
Definition particle_loops (miepy : pyobj) (positions : list (Rl * Rl * Rl))
    (lmax : Z) (k : K)
    (stmts : Z -> Z -> Z -> Z -> Z -> Z -> Z -> Z -> C -> C -> list stmt)
    (interaction_matrix : ndarray) : M ndarray :=
  let Nparticles := length positions in
  for_each (seq 0 Nparticles) (fun i im =>
    for_each (seq (S i) (Nparticles - S i)) (fun j im =>
      (let! pi := lift (row positions i) in
       let! pj := lift (row positions j) in
       mode_loops miepy lmax k (separation pi pj)
         (stmts (Z.of_nat i) (Z.of_nat j)) im)%M)
    im)
  interaction_matrix.

(** [miepy.vsh.<name>(x)] *)
Definition call_vsh (miepy : pyobj) (name : string) (x : Z) : result Z :=
  (let! vsh := getattr miepy "vsh" in
   let! f := getattr vsh name in
   call_int f x)%res.

Definition sphere_cluster_tmatrix (miepy : pyobj) (positions : list (Rl * Rl * Rl))
    (a : ndarray) (k : K) : M ndarray :=
  let Nparticles := length positions in
  (let! lmax := lift (shape_last a) in
   let! rmax := lift (call_vsh miepy "lmax_to_rmax" (Z.of_nat lmax)) in
   let! rmax := lift (to_dim rmax) in
   let identity := identity_tensor Nparticles rmax in
   let interaction_matrix := np_zeros (cluster_shape Nparticles rmax) in
   let! interaction_matrix :=
     particle_loops miepy positions (Z.of_nat lmax) k (sphere_stmts a)
       interaction_matrix in
   lift (np_add identity interaction_matrix))%M.

Definition solve_sphere_cluster (miepy : pyobj) (positions : list (Rl * Rl * Rl))
    (a p_src : ndarray) (k : K) : M ndarray :=
  (let! A := sphere_cluster_tmatrix miepy positions a k in
   lift (tensorsolve A p_src))%M.

(** [np.einsum('iabjcd,jcdef->iabjef', x, y)]: the labels [j], [c] and [d]
    occur in both operands, whose axes must agree or have length 1; [c]
    and [d] are summed. *)
Definition einsum_iabjcd_jcdef (x y : ndarray) : result ndarray :=
  match shape x, shape y with
  | [di; da; db; dj; dc; dd], [dj'; dc'; dd'; de; df] =>
      (let! nj := broadcast_dim dj dj' in
       let! nc := broadcast_dim dc dc' in
       let! nd := broadcast_dim dd dd' in
       OK (tabulate [di; da; db; nj; de; df]
             (fun l => match l with
                       | [i; a; b; j; e; f] =>
                           csum (fun cd : nat * nat =>
                                   cmul (entry x (clamp (shape x) [i; a; b; j; fst cd; snd cd]))
                                        (entry y (clamp (shape y) [j; fst cd; snd cd; e; f])))
                                (list_prod (seq 0 nc) (seq 0 nd))
                       | _ => c0
                       end)))%res
  | _, _ => Err ValueError
  end.

Definition particle_cluster_tmatrix (miepy : pyobj) (positions : list (Rl * Rl * Rl))
    (tmatrix : ndarray) (k : K) : M ndarray :=
  let Nparticles := length positions in
  (let! rmax := lift (shape_last tmatrix) in
   let! lmax := lift (call_vsh miepy "rmax_to_lmax" (Z.of_nat rmax)) in
   let identity := identity_tensor Nparticles rmax in
   let interaction_matrix := np_zeros (cluster_shape Nparticles rmax) in
   let! interaction_matrix :=
     particle_loops miepy positions lmax k (fun i j => particle_stmts i j)
       interaction_matrix in
   let! interaction_matrix := lift (einsum_iabjcd_jcdef interaction_matrix tmatrix) in
   lift (np_add identity interaction_matrix))%M.

Definition solve_particle_cluster (miepy : pyobj) (positions : list (Rl * Rl * Rl))
    (tmatrix p_src : ndarray) (k : K) : M ndarray :=
  (let! A := particle_cluster_tmatrix miepy positions tmatrix k in
   lift (tensorsolve A p_src))%M.

End Assemblers.

(** ** The assignments of one iteration as writes

    For subscripts in range an assignment is a write of a value at an index;
    the sixteen assignments of one iteration are four blocks of four, one
    block per line group of the source. *)

Section Writes.
Context {num : Numerics}.

Definition write : Type := (list nat * C)%type.

Fixpoint apply_writes (ws : list write) (t : ndarray) : ndarray :=
  match ws with
  | [] => t
  | w :: ws' => apply_writes ws' (update t (fst w) (snd w))
  end.

(** The value that the last write at [l] stores, if there is one. *)
Fixpoint last_write (ws : list write) (l : list nat) : option C :=
  match ws with
  | [] => None
  | w :: ws' =>
      match last_write ws' l with
      | Some y => Some y
      | None => if decide (fst w = l) then Some (snd w) else None
      end
  end.

(** The statement [st] on an array of shape [sh] is the write [w]. *)
Definition resolves (sh : list nat) (st : stmt) (w : write) : Prop :=
  norm_indices sh (fst st) = OK (fst w) /\ snd st = OK (snd w).

(** Four assignments [t[p,0,x,q,0,y]], [t[p,0,x,q,1,y]], [t[p,1,x,q,0,y]],
    [t[p,1,x,q,1,y]]. *)
Definition block (p q : nat) (x y : Z) (v00 v01 v10 v11 : C) : list write :=
  [ ([p; 0; Z.to_nat x; q; 0; Z.to_nat y]%nat, v00);
    ([p; 0; Z.to_nat x; q; 1; Z.to_nat y]%nat, v01);
    ([p; 1; Z.to_nat x; q; 0; Z.to_nat y]%nat, v10);
    ([p; 1; Z.to_nat x; q; 1; Z.to_nat y]%nat, v11) ].

(** [a[q, c, d]] for subscripts in range. *)
Definition coef (a : ndarray) (q c : nat) (d : Z) : C :=
  entry a [q; c; Z.to_nat d].

(** A block of [sphere_cluster_tmatrix]: the transfer coefficients times
    the Mie coefficients of the source particle [q] at degree [d + 1]. *)
Definition scaled_block (a : ndarray) (p q : nat) (x y d : Z) (tA tB : C) : list write :=
  block p q x y
    (cmul tA (coef a q 0 d)) (cmul tB (coef a q 1 d))
    (cmul tB (coef a q 0 d)) (cmul tA (coef a q 1 d)).

Definition sphere_writes (a : ndarray) (i j : nat) (r n m s v u : Z) (tA tB : C)
    : list write :=
  scaled_block a i j r s (v - 1) tA tB ++
  scaled_block a j i r s (v - 1)
    (cmul (sign_pow (n + v)) tA) (cmul (sign_pow (n + v + 1)) tB) ++
  scaled_block a i j (s - 2 * u) (r - 2 * m) (n - 1)
    (cmul (sign_pow (m + u)) tA) (cmul (sign_pow (m + u + 1)) tB) ++
  scaled_block a j i (s - 2 * u) (r - 2 * m) (n - 1)
    (cmul (sign_pow (m + u + n + v)) tA) (cmul (sign_pow (m + u + n + v)) tB).

(** A block of [particle_cluster_tmatrix]: the transfer coefficients. *)
Definition plain_block (p q : nat) (x y : Z) (tA tB : C) : list write :=
  block p q x y tA tB tB tA.

Definition particle_writes (i j : nat) (r n m s v u : Z) (tA tB : C) : list write :=
  plain_block i j r s tA tB ++
  plain_block j i r s
    (cmul (sign_pow (n + v)) tA) (cmul (sign_pow (n + v + 1)) tB) ++
  plain_block i j (s - 2 * u) (r - 2 * m)
    (cmul (sign_pow (m + u)) tA) (cmul (sign_pow (m + u + 1)) tB) ++
  plain_block j i (s - 2 * u) (r - 2 * m)
    (cmul (sign_pow (m + u + n + v)) tA) (cmul (sign_pow (m + u + n + v)) tB).

(** The iterations of the four nested loops, in order: the pairs of
    particles [i < j], and for each the pairs of modes with the
    separation of the two particles. *)
Definition pairs (Nparticles : nat) : list (nat * nat) :=
  flat_map (fun i => map (fun j => (i, j)) (seq (S i) (Nparticles - S i)))
           (seq 0 Nparticles).

Record iteration : Type := Iteration {
  it_i : nat;
  it_j : nat;
  it_sep : Rl * Rl * Rl;
  it_rnm : Z * Z * Z;
  it_svu : Z * Z * Z
}.

Definition mode_pairs (lmax : Z) : list ((Z * Z * Z) * (Z * Z * Z)) :=
  flat_map (fun rnm => map (fun svu => (rnm, svu)) (mode_indices lmax))
           (mode_indices lmax).

Definition iterations (positions : list (Rl * Rl * Rl)) (lmax : Z) : list iteration :=
  flat_map (fun ij : nat * nat =>
              match positions !! fst ij, positions !! snd ij with
              | Some pi, Some pj =>
                  map (fun rs => Iteration (fst ij) (snd ij) (separation pi pj)
                                           (fst rs) (snd rs))
                      (mode_pairs lmax)
              | _, _ => []
              end)
           (pairs (length positions)).

(** The guard of the inner loop: [true] where the source continues. *)
Definition skipped (rnm svu : Z * Z * Z) : bool :=
  let '(r, _, _) := rnm in
  let '(s, _, u) := svu in
  s - 2 * u <? r.

(** The call that an iteration makes, if its guard lets it through. *)
Definition iteration_calls (k : K) (it : iteration) : list call :=
  if skipped (it_rnm it) (it_svu it) then []
  else
    let '(r, n, m) := it_rnm it in
    let '(s, v, u) := it_svu it in
    let '(r_ji, theta_ji, phi_ji) := it_sep it in
    [Call m n u v r_ji theta_ji phi_ji k outgoing].

Definition cluster_calls (positions : list (Rl * Rl * Rl)) (lmax : Z) (k : K) : list call :=
  concat (map (iteration_calls k) (iterations positions lmax)).

(** The body of one iteration of the flattened loops. *)
Definition iteration_body (miepy : pyobj) (k : K)
    (stmts : Z -> Z -> Z -> Z -> Z -> Z -> Z -> Z -> C -> C -> list stmt)
    (it : iteration) (im : ndarray) : M ndarray :=
  mode_pair miepy k (it_sep it)
    (stmts (Z.of_nat (it_i it)) (Z.of_nat (it_j it))) (it_rnm it) (it_svu it) im.

(** The writes of one iteration of each assembler. *)
Definition sphere_it_writes (a : ndarray) (it : iteration) (tA tB : C) : list write :=
  let '(r, n, m) := it_rnm it in
  let '(s, v, u) := it_svu it in
  sphere_writes a (it_i it) (it_j it) r n m s v u tA tB.

Definition particle_it_writes (it : iteration) (tA tB : C) : list write :=
  let '(r, n, m) := it_rnm it in
  let '(s, v, u) := it_svu it in
  particle_writes (it_i it) (it_j it) r n m s v u tA tB.

(** [rmax] for [lmax], as the length of an axis. *)
Definition rmax_of (lmax : nat) : nat := Z.to_nat (Z.of_nat lmax * (Z.of_nat lmax + 2)).

(** The call of the mode pair [(r, n, m)], [(s, v, u)] for a separation. *)
Definition call_of (k : K) (sep : Rl * Rl * Rl) (rnm svu : Z * Z * Z) : call :=
  let '(_, n, m) := rnm in
  let '(_, v, u) := svu in
  let '(r_ji, theta_ji, phi_ji) := sep in
  Call m n u v r_ji theta_ji phi_ji k outgoing.

(** The particle indices of a target: the entries 0 and 3 of the index. *)
Definition crosses (w : write) : Prop := nth 0 (fst w) 0%nat <> nth 3 (fst w) 0%nat.

(** The diagonal blocks of a matrix are zero. *)
Definition diagonal_blocks_zero (N rmax : nat) (im : ndarray) : Prop :=
  forall i pol r pol' s,
    (i < N)%nat -> (pol < 2)%nat -> (r < rmax)%nat -> (pol' < 2)%nat -> (s < rmax)%nat ->
    entry im [i; pol; r; i; pol'; s] = c0.

(** Two lists of writes at the same indices, the values of the first being
    those of the second times [g] of the index, keep two arrays in this
    relation. *)
Definition scaled_by (g : list nat -> C) (w1 w2 : write) : Prop :=
  fst w1 = fst w2 /\ snd w1 = cmul (snd w2) (g (fst w1)).

End Writes.

(** ** The linear system of the solvers

    [np.linalg.tensorsolve(A, b)] solves [tensordot(A, x, axes=x.ndim) = b]
    for [x], whose shape is that of the trailing axes of [A]. *)

Section Solve.
Context {num : Numerics}.

(** [np.tensordot(A, x, axes=x.ndim)]: the trailing axes of [A] are summed
    against all axes of [x]. *)
Definition tensordot (A x : ndarray) : ndarray :=
  let out := take (length (shape A) - length (shape x)) (shape A) in
  tabulate out
    (fun l => csum (fun p => cmul (entry A (l ++ unravel (shape x) p))
                                  (entry x (unravel (shape x) p)))
                   (seq 0 (size_of (shape x)))).

(** [x] is a solution of the system with operator [A] and right-hand side
    [b]. *)
Definition solves (A b x : ndarray) : Prop :=
  wf x /\ shape x = drop (length (shape b)) (shape A) /\ tensordot A x = b.

(** What numpy documents of [tensorsolve], at one system: where the system
    has exactly one solution, that solution is returned. *)
Definition tensorsolve_exact (tensorsolve : ndarray -> ndarray -> result ndarray)
    (A b : ndarray) : Prop :=
  forall x, solves A b x -> (forall y, solves A b y -> y = x) ->
            tensorsolve A b = OK x.

(** The system has a kernel: the operator is singular. *)
Definition singular (A : ndarray) (sh : list nat) : Prop :=
  exists x, wf x /\ shape x = sh /\ x <> np_zeros sh /\
            tensordot A x = np_zeros (take (length (shape A) - length sh) (shape A)).

End Solve.

(** ** Purely diagonal T-matrices and relabelled particles *)

Section Inputs.
Context {num : Numerics}.

(** The degree [n] of the mode with linear index [r], by the enumeration. *)
Definition mode_degree (lmax : Z) (r : nat) : Z :=
  match find (fun rnm : Z * Z * Z => fst (fst rnm) =? Z.of_nat r) (mode_indices lmax) with
  | Some (_, n, _) => n
  | None => 0
  end.

(** The T-matrices [tmatrix[N,2,rmax,2,rmax]] of spheres with the Mie
    coefficients [a[N,2,lmax]]: the coefficient of the polarization and of
    the degree of the mode on the diagonal, zero elsewhere (section 8 of the
    specification; the source has no such constructor). *)
Definition diagonal_tmatrix (a : ndarray) (N lmax : nat) : ndarray :=
  tabulate [N; 2%nat; rmax_of lmax; 2%nat; rmax_of lmax]
    (fun l => match l with
              | [j; c; d; e; g] =>
                  if decide (c = e /\ d = g)
                  then coef a j c (mode_degree (Z.of_nat lmax) d - 1)
                  else c0
              | _ => c0
              end).

(** The coefficients of two particles with the two rows exchanged. *)
Definition swap_rows (a : ndarray) : ndarray :=
  tabulate (shape a)
    (fun l => match l with
              | j :: l' => entry a ((1 - j)%nat :: l')
              | [] => c0
              end).

End Inputs.

(** ** Integers as numbers, to run the model on inputs

    Scalars, coordinates and the wavenumber are integers; the quotient of
    the division by zero is 0, and the two angles are stand-ins that keep
    their arguments apart.  No assembler inspects a coordinate or a scalar,
    so the control flow is that of any other instance. *)
Definition integer_numerics : Numerics := {|
  C := Z; c0 := 0; c1 := 1;
  cadd := Z.add; cmul := Z.mul; csub := Z.sub; copp := Z.opp;
  C_ring := InitialRing.Zth;
  Rl := Z;
  rsub := Z.sub;
  rdiv := Z.div;
  norm3 := fun x y z => Z.sqrt (x * x + y * y + z * z);
  arccos := fun x => x;
  arctan2 := fun y x => 2 * y + x;
  K := Z
|}.

Section Integer_inputs.
#[local] Existing Instance integer_numerics.

(** An array of the given shape and entries. *)
Definition array_of (sh : list nat) (entries : list Z) : ndarray := NdArray sh entries.

(** Exact elimination as a stand-in for [np.linalg.tensorsolve] on integer
    data.  As numpy does, it takes the axes of [A] after the first
    [b.ndim] as the shape [Q] of the solution, raises [LinAlgError] when
    [A] has not [prod(Q)^2] cells, reshapes [A] to a square matrix and
    solves it against the flattened [b]: [ValueError] when [b] has not
    [prod(Q)] cells, [LinAlgError] when a column has no pivot (the operator
    is singular).  The elimination is Gauss-Jordan without fractions on the
    rows [A | b]; a system whose solution is not integral has no answer in
    integers and is answered with [LinAlgError] too. *)
Definition row_combine (p q : Z) (r1 r2 : list Z) : list Z :=
  zip_with (fun x y => p * x - q * y) r1 r2.

Definition row_reduce (r : list Z) : list Z :=
  let g := fold_right Z.gcd 0 r in
  if g =? 0 then r else map (fun x => x / g) r.

Fixpoint find_pivot (c : nat) (rows : list (list Z)) (i : nat) : option nat :=
  match rows with
  | [] => None
  | r :: rows' =>
      if (c <=? i)%nat && negb (nth c r 0 =? 0) then Some i
      else find_pivot c rows' (S i)
  end.

Definition swap_rows_at (i j : nat) (rows : list (list Z)) : list (list Z) :=
  let ri := nth i rows [] in
  let rj := nth j rows [] in
  <[i := rj]> (<[j := ri]> rows).

Fixpoint gauss_jordan (cols : list nat) (rows : list (list Z)) : result (list (list Z)) :=
  match cols with
  | [] => OK rows
  | c :: cols' =>
      match find_pivot c rows 0 with
      | None => Err LinAlgError
      | Some i =>
          let rows1 := swap_rows_at c i rows in
          let prow := nth c rows1 [] in
          let p := nth c prow 0 in
          gauss_jordan cols'
            (imap (fun i r => if (i =? c)%nat then r
                              else row_reduce (row_combine p (nth c r 0) r prow))
                  rows1)
      end
  end.

Fixpoint chunks (n : nat) (count : nat) (l : list Z) : list (list Z) :=
  match count with
  | O => []
  | S count' => take n l :: chunks n count' (drop n l)
  end.

Fixpoint read_solution (i : nat) (rows : list (list Z)) : result (list Z) :=
  match rows with
  | [] => OK []
  | r :: rows' =>
      let d := nth i r 0 in
      let y := List.last r 0 in
      if (d =? 0) || negb (y mod d =? 0) then Err LinAlgError
      else (let! xs := read_solution (S i) rows' in OK (y / d :: xs))%res
  end.

Definition integer_tensorsolve (A b : ndarray) : result ndarray :=
  let Q := drop (length (shape b)) (shape A) in
  let n := size_of Q in
  if negb (length (data A) =? n * n)%nat then Err LinAlgError
  else if negb (length (data b) =? n)%nat then Err ValueError
  else
    (let rows := zip_with (fun r y => r ++ [y]) (chunks n n (data A)) (data b) in
     let! rows' := gauss_jordan (seq 0 n) rows in
     let! xs := read_solution 0 rows' in
     OK (NdArray Q xs))%res.

(** A translation operator for the examples: a pair that depends on the
    four mode integers, taken with the parity factors [(-1)^(n+v)] and
    [(-1)^(n+v+1)] for a separation whose polar angle is negative. *)
Definition example_translation : translation :=
  fun m n u v r theta phi k mode =>
    let tA := 2 + m * m + 3 * u * u + n + v in
    let tB := 1 + n * v + m * m in
    if 0 <=? theta then (tA, tB)
    else (sign_pow (n + v) * tA, sign_pow (n + v + 1) * tB).

Definition one_particle : list (Z * Z * Z) := [(0, 0, 0)].
Definition two_particles : list (Z * Z * Z) := [(0, 0, 1); (0, 0, 0)].
Definition coincident_particles : list (Z * Z * Z) := [(1, 2, 3); (1, 2, 3)].

(** Mie coefficients [a[2,2,1]], [a[1,2,1]] and [a[3,2,1]], a source
    [p_src[1,2,3]]. *)
Definition example_mie : ndarray := array_of [2; 2; 1]%nat [2; 3; 5; 7].
Definition example_source : ndarray := array_of [1; 2; 3]%nat [1; 2; 3; 4; 5; 6].

End Integer_inputs.

(** ** Which value an entry holds after an iteration *)

Section Placements.
Context {num : Numerics}.

(** The value of a block for a pair of polarizations. *)
Definition pick {A : Type} (pol pol' : nat) (v00 v01 v10 v11 : A) : A :=
  match pol, pol' with
  | O, O => v00
  | O, S _ => v01
  | S _, O => v10
  | S _, S _ => v11
  end.

(** The transfer coefficient of a pair of polarizations: [A] for equal
    polarizations, [B] for different ones. *)
Definition transfer (pol pol' : nat) (tA tB : C) : C := pick pol pol' tA tB tB tA.

(** 0 for equal polarizations and 1 for different ones. *)
Definition cross_pol (pol pol' : nat) : Z := pick pol pol' 0 1 1 0.

End Placements.

(** The Mie coefficient that scales the entry at an index of the operator of
    [sphere_cluster_tmatrix]: that of the source particle, of its
    polarization and of the degree of its mode (entries 3, 4 and 5 of the
    index). *)
Definition column_coef {num : Numerics} (a : ndarray) (lmax : Z) (l : list nat) : C :=
  match l with
  | [_; _; _; q; pol'; col] => coef a q pol' (mode_degree lmax col - 1)
  | _ => c0
  end.

(** ** Two particles with their labels exchanged *)

Section Relabelling.
Context {num : Numerics}.

(** The index of the operator of two particles with the two particle labels
    exchanged. *)
Definition relabel (l : list nat) : list nat :=
  match l with
  | [i; a; r; j; c; s] => [(1 - i)%nat; a; r; (1 - j)%nat; c; s]
  | _ => l
  end.

(** The parity relation of the translation operator between a separation
    and the opposite one (section 4.2 of the specification): the pair for
    the opposite separation is the pair for the separation with the factors
    [(-1)^(n+v)] on [A] and [(-1)^(n+v+1)] on [B]. *)
Definition parity_contract (f : translation) (k : K) (sep sep' : Rl * Rl * Rl) : Prop :=
  forall m n u v,
    let '(r, theta, phi) := sep in
    let '(r', theta', phi') := sep' in
    f m n u v r' theta' phi' k outgoing
    = (cmul (sign_pow (n + v)) (fst (f m n u v r theta phi k outgoing)),
       cmul (sign_pow (n + v + 1)) (snd (f m n u v r theta phi k outgoing))).

End Relabelling.

(** ** The coupling matrix in closed form *)

Section Coupling.
Context {num : Numerics}.

(** The writes of the iterations that pass the guard, in the order of the
    loops, each with the pair that the translation operator returns. *)
Definition executed_writes (f : translation) (k : K)
    (writes : iteration -> C -> C -> list write) (its : list iteration) : list write :=
  flat_map (fun it =>
              if skipped (it_rnm it) (it_svu it) then []
              else
                let '(r, n, m) := it_rnm it in
                let '(s, v, u) := it_svu it in
                let '(r_ji, theta_ji, phi_ji) := it_sep it in
                let AB := f m n u v r_ji theta_ji phi_ji k outgoing in
                writes it (fst AB) (snd AB))
           its.

(** The entry of the coupling matrix of [particle_cluster_tmatrix] at the
    row of the mode [(n, m)] and polarization [pol] of a particle [p] and
    the column of the mode [(v, u)] and polarization [pol'] of another
    particle [q], for the separation of the two particles in the order of
    their labels; [forward] is [p < q].  Where the index of [(v, -u)] is
    not above that of [(n, m)] the entry is a conjugate placement of the
    mode pair [(v, -u)], [(n, -m)], and a direct placement of the mode pair
    [(n, m)], [(v, u)] otherwise. *)
Definition coupling (f : translation) (k : K) (sep : Rl * Rl * Rl) (forward : bool)
    (pol pol' : nat) (n m v u : Z) : C :=
  let '(r_ji, theta_ji, phi_ji) := sep in
  if mode_index v (- u) <=? mode_index n m then
    let AB := f (- u) v (- m) n r_ji theta_ji phi_ji k outgoing in
    if forward
    then cmul (sign_pow (- u + - m + cross_pol pol pol')) (transfer pol pol' (fst AB) (snd AB))
    else cmul (sign_pow (- u + - m + v + n)) (transfer pol pol' (fst AB) (snd AB))
  else
    let AB := f m n u v r_ji theta_ji phi_ji k outgoing in
    if forward
    then transfer pol pol' (fst AB) (snd AB)
    else cmul (sign_pow (n + v + cross_pol pol pol')) (transfer pol pol' (fst AB) (snd AB)).

End Coupling.

(** ** [miepy/forces.py] *)

Section Forces.
Context {num : Numerics}.

(** [levi_civita()]: an array of zeros with six entries assigned.  A
    chained assignment [x = y = z = 1] stores the value in its targets from
    left to right. *)
Definition levi_civita : result ndarray :=
  (let eijk := np_zeros [3; 3; 3]%nat in
   let! eijk := setitem eijk [0; 1; 2] c1 in
   let! eijk := setitem eijk [1; 2; 0] c1 in
   let! eijk := setitem eijk [2; 0; 1] c1 in
   let! eijk := setitem eijk [0; 2; 1] (copp c1) in
   let! eijk := setitem eijk [2; 1; 0] (copp c1) in
   let! eijk := setitem eijk [1; 0; 2] (copp c1) in
   OK eijk)%res.

End Forces.

(** * Properties *)

(** ** Results and the call log *)

Lemma is_OK_true {A : Type} (r : result A) : is_OK r = true -> exists x, r = OK x.
Proof. destruct r as [e | x]; simpl; [discriminate | eauto]. Qed.

Lemma rbind_OK {A B : Type} (r : result A) (f : A -> result B) (y : B) :
  rbind r f = OK y -> exists x, r = OK x /\ f x = OK y.
Proof.
  destruct r as [e | x]; simpl; intros H; [discriminate | eauto].
Qed.

Section Monad_facts.
Context {num : Numerics}.

Lemma mbind_lift_OK {A B : Type} (x : A) (f : A -> M B) :
  mbind (lift (OK x)) f = f x.
Proof. unfold mbind, lift, OK. simpl. destruct (f x); reflexivity. Qed.

Lemma mbind_lift_Err {A B : Type} (e : exn) (f : A -> M B) :
  mbind (lift (Err e)) f = ([], Err e).
Proof. reflexivity. Qed.

Lemma mbind_nil_OK {A B : Type} (x : A) (f : A -> M B) :
  mbind ([], OK x) f = f x.
Proof. apply mbind_lift_OK. Qed.

Lemma mbind_mret {A B : Type} (x : A) (f : A -> M B) :
  mbind (mret x) f = f x.
Proof. apply mbind_lift_OK. Qed.

Lemma mbind_OK {A B : Type} (c : M A) (f : A -> M B) log x log' r :
  c = (log, OK x) -> f x = (log', r) -> mbind c f = (log ++ log', r).
Proof. intros -> H. unfold mbind, OK. rewrite H. reflexivity. Qed.

(** A loop whose body succeeds and keeps an invariant succeeds with the
    invariant; its log is that of the iterations in order. *)
Lemma for_each_inv {A S : Type} (P : S -> Prop) (logf : A -> list call)
    (l : list A) (body : A -> S -> M S) (s : S) :
  (forall x s0, x ∈ l -> P s0 ->
     exists s1, body x s0 = (logf x, OK s1) /\ P s1) ->
  P s ->
  exists s', for_each l body s = (concat (map logf l), OK s') /\ P s'.
Proof.
  revert s. induction l as [| x l IH]; intros s Hbody Hs.
  - exists s. split; [reflexivity | assumption].
  - destruct (Hbody x s) as (s1 & H1 & HP1); [left | assumption |].
    destruct (IH s1) as (s' & H' & HP'); [| assumption |].
    + intros y s0 Hy. apply Hbody. now right.
    + exists s'. split; [| assumption].
      simpl. eapply mbind_OK; eassumption.
Qed.

(** Two loops over lists of one length run in lockstep: when the bodies
    succeed together on related elements and keep a relation between the
    two states, so do the loops. *)
Lemma for_each_rel {A1 A2 S1 S2 : Type} (Q : A1 -> A2 -> Prop) (R : S1 -> S2 -> Prop)
    (L : list call -> list call -> Prop)
    (l1 : list A1) (l2 : list A2)
    (body1 : A1 -> S1 -> M S1) (body2 : A2 -> S2 -> M S2) s1 s2 :
  L [] [] ->
  (forall a b a' b', L a b -> L a' b' -> L (a ++ a') (b ++ b')) ->
  (forall x1 x2 t1 t2, Q x1 x2 -> R t1 t2 ->
     exists log1 log2 t1' t2',
       body1 x1 t1 = (log1, OK t1') /\ body2 x2 t2 = (log2, OK t2') /\
       L log1 log2 /\ R t1' t2') ->
  Forall2 Q l1 l2 ->
  R s1 s2 ->
  exists log1 log2 s1' s2',
    for_each l1 body1 s1 = (log1, OK s1') /\ for_each l2 body2 s2 = (log2, OK s2') /\
    L log1 log2 /\ R s1' s2'.
Proof.
  intros Hnil Happ Hbody HQ. revert s1 s2.
  induction HQ as [| x1 x2 l1 l2 Hx _ IH]; intros s1 s2 HR.
  - exists [], [], s1, s2. repeat split; assumption.
  - destruct (Hbody x1 x2 s1 s2 Hx HR) as (g1 & g2 & t1 & t2 & H1 & H2 & HL & HR').
    destruct (IH t1 t2 HR') as (h1 & h2 & u1 & u2 & K1 & K2 & KL & KR).
    exists (g1 ++ h1), (g2 ++ h2), u1, u2. simpl.
    repeat split;
      [eapply mbind_OK; eassumption | eapply mbind_OK; eassumption
      | now apply Happ | assumption].
Qed.

End Monad_facts.

(** ** Arrays: indices and the buffer *)

Section Array_facts.
Context {num : Numerics}.

Add Ring C_as_ring : C_ring.

Lemma size_of_cons d sh : size_of (d :: sh) = (d * size_of sh)%nat.
Proof. reflexivity. Qed.

Lemma ravel_lt sh l : in_range sh l -> (ravel sh l < size_of sh)%nat.
Proof.
  induction 1 as [| d i sh l Hi _ IH]; simpl; [lia |].
  fold (size_of sh). nia.
Qed.

Lemma unravel_ravel sh l : in_range sh l -> unravel sh (ravel sh l) = l.
Proof.
  induction 1 as [| d i sh l Hi Hr IH]; simpl; [reflexivity |].
  pose proof (ravel_lt _ _ Hr) as Hlt.
  rewrite Nat.div_add_l by lia.
  rewrite (Nat.div_small (ravel sh l)) by assumption.
  rewrite (Nat.add_comm (i * size_of sh)), Nat.Div0.mod_add, Nat.mod_small by assumption.
  rewrite IH. f_equal. lia.
Qed.

Lemma ravel_inj sh l l' :
  in_range sh l -> in_range sh l' -> ravel sh l = ravel sh l' -> l = l'.
Proof.
  intros H H' E. rewrite <- (unravel_ravel sh l H), <- (unravel_ravel sh l' H').
  now rewrite E.
Qed.

Lemma unravel_in_range sh p : (p < size_of sh)%nat -> in_range sh (unravel sh p).
Proof.
  revert p. induction sh as [| d sh IH]; intros p Hp; simpl; [constructor |].
  rewrite size_of_cons in Hp.
  assert (size_of sh <> 0%nat) by (intros E; rewrite E in Hp; lia).
  constructor.
  - apply Nat.Div0.div_lt_upper_bound. lia.
  - apply IH. now apply Nat.mod_upper_bound.
Qed.

Lemma ravel_unravel sh p : (p < size_of sh)%nat -> ravel sh (unravel sh p) = p.
Proof.
  revert p. induction sh as [| d sh IH]; intros p Hp; simpl in *; [lia |].
  fold (size_of sh) in *.
  assert (size_of sh <> 0%nat) by (intros E; rewrite E in Hp; lia).
  rewrite IH by now apply Nat.mod_upper_bound.
  rewrite (Nat.div_mod_eq p (size_of sh)) at 3. lia.
Qed.

Lemma in_range_length sh l : in_range sh l -> length l = length sh.
Proof. intros H. symmetry. exact (Forall2_length _ _ _ H). Qed.

(** Subscripts *)

Lemma norm_index_lt d k i : norm_index d k = OK i -> (i < d)%nat.
Proof.
  unfold norm_index.
  destruct ((0 <=? k) && (k <? Z.of_nat d)) eqn:E1.
  - intros [= <-]. apply andb_prop in E1 as [? ?]. lia.
  - destruct ((- Z.of_nat d <=? k) && (k <? 0)) eqn:E2; [| discriminate].
    intros [= <-]. apply andb_prop in E2 as [? ?]. lia.
Qed.

Lemma norm_index_Z d k :
  0 <= k < Z.of_nat d -> norm_index d k = OK (Z.to_nat k).
Proof.
  intros H. unfold norm_index.
  replace (0 <=? k) with true by (symmetry; apply Z.leb_le; lia).
  replace (k <? Z.of_nat d) with true by (symmetry; apply Z.ltb_lt; lia).
  reflexivity.
Qed.

Lemma norm_index_nat d i : (i < d)%nat -> norm_index d (Z.of_nat i) = OK i.
Proof. intros H. rewrite norm_index_Z by lia. now rewrite Nat2Z.id. Qed.

Lemma norm_indices_in_range sh idx l : norm_indices sh idx = OK l -> in_range sh l.
Proof.
  revert idx l. induction sh as [| d sh IH]; intros [| k idx] l; simpl; try discriminate.
  - intros [= <-]. constructor.
  - intros H. apply rbind_OK in H as (i & Hi & H).
    apply rbind_OK in H as (l' & Hl' & [= <-]).
    constructor; [now apply norm_index_lt in Hi | now apply IH in Hl'].
Qed.

Lemma norm_indices_nat sh l :
  in_range sh l -> norm_indices sh (map Z.of_nat l) = OK l.
Proof.
  induction 1 as [| d i sh l Hi _ IH]; simpl; [reflexivity |].
  rewrite norm_index_nat by assumption. simpl. now rewrite IH.
Qed.

(** Reading and writing *)

Lemma getitem_entry a idx l :
  wf a -> norm_indices (shape a) idx = OK l -> getitem a idx = OK (entry a l).
Proof.
  intros Hwf Hl. unfold getitem, entry. rewrite Hl. simpl.
  destruct (data a !! ravel (shape a) l) eqn:E; [reflexivity |].
  apply lookup_ge_None in E. apply norm_indices_in_range, ravel_lt in Hl.
  unfold wf in Hwf. lia.
Qed.

Lemma setitem_update a idx l v :
  norm_indices (shape a) idx = OK l -> setitem a idx v = OK (update a l v).
Proof. intros Hl. unfold setitem. now rewrite Hl. Qed.

Lemma shape_update a l v : shape (update a l v) = shape a.
Proof. reflexivity. Qed.

Lemma wf_update a l v : wf a -> wf (update a l v).
Proof. unfold wf, update. simpl. now rewrite length_insert. Qed.

Lemma entry_update a l v l' :
  wf a -> in_range (shape a) l -> in_range (shape a) l' ->
  entry (update a l v) l' = if decide (l' = l) then v else entry a l'.
Proof.
  intros Hwf Hl Hl'. unfold entry, update. simpl.
  destruct (decide (l' = l)) as [-> | Hne].
  - rewrite list_lookup_insert_eq; [reflexivity |].
    apply ravel_lt in Hl. unfold wf in Hwf. lia.
  - rewrite list_lookup_insert_ne; [reflexivity |].
    intros E. apply Hne. symmetry. eapply ravel_inj; eassumption.
Qed.

Lemma shape_tabulate sh f : shape (tabulate sh f) = sh.
Proof. reflexivity. Qed.

Lemma wf_tabulate sh f : wf (tabulate sh f).
Proof. unfold wf, tabulate. simpl. now rewrite length_map, length_seq. Qed.

Lemma entry_tabulate sh f l : in_range sh l -> entry (tabulate sh f) l = f l.
Proof.
  intros Hl. unfold entry, tabulate. simpl.
  pose proof (ravel_lt _ _ Hl) as Hlt.
  rewrite list_lookup_fmap, lookup_seq_lt by assumption. simpl.
  now rewrite unravel_ravel.
Qed.

Lemma wf_zeros sh : wf (np_zeros sh).
Proof. unfold wf, np_zeros. simpl. now rewrite length_replicate. Qed.

Lemma entry_zeros sh l : entry (np_zeros sh) l = c0.
Proof.
  unfold entry, np_zeros. simpl.
  destruct (replicate (size_of sh) c0 !! ravel sh l) eqn:E; [| reflexivity].
  apply lookup_replicate in E as [-> _]. reflexivity.
Qed.

(** Two arrays of one shape with the same entries are the same array. *)
Lemma array_ext a b :
  wf a -> wf b -> shape a = shape b ->
  (forall l, in_range (shape a) l -> entry a l = entry b l) ->
  a = b.
Proof.
  destruct a as [sh da], b as [sh' db]. unfold wf, entry. simpl.
  intros Ha Hb <- H. f_equal.
  apply list_eq. intros p.
  destruct (decide (p < size_of sh)%nat) as [Hp | Hp].
  - specialize (H (unravel sh p) (unravel_in_range sh p Hp)).
    rewrite ravel_unravel in H by assumption.
    destruct (lookup_lt_is_Some_2 da p) as [x Hx]; [lia |].
    destruct (lookup_lt_is_Some_2 db p) as [y Hy]; [lia |].
    rewrite Hx, Hy in *. simpl in H. now subst.
  - rewrite !(proj2 (lookup_ge_None _ _)) by lia. reflexivity.
Qed.

(** Addition of two arrays of one shape *)

Lemma broadcast_shape_same sh : broadcast_shape sh sh = OK sh.
Proof.
  induction sh as [| d sh IH]; simpl; [reflexivity |].
  unfold broadcast_dim. rewrite decide_True by reflexivity. simpl.
  now rewrite IH.
Qed.

Lemma clamp_in_range sh l : in_range sh l -> clamp sh l = l.
Proof.
  induction 1 as [| d i sh l Hi _ IH]; simpl; [reflexivity |].
  rewrite IH. destruct (decide (d = 1%nat)); [f_equal; lia | reflexivity].
Qed.

Lemma np_add_same_shape a b :
  shape a = shape b ->
  exists t, np_add a b = OK t /\ shape t = shape a /\ wf t /\
    forall l, in_range (shape a) l -> entry t l = cadd (entry a l) (entry b l).
Proof.
  intros E. unfold np_add. rewrite <- E, broadcast_shape_same. simpl.
  eexists. split; [reflexivity |]. split; [reflexivity |].
  split; [apply wf_tabulate |].
  intros l Hl. rewrite entry_tabulate by assumption.
  now rewrite clamp_in_range.
Qed.

(** Signs *)

Lemma sign_pow_even k : Z.even k = true -> sign_pow k = c1.
Proof. unfold sign_pow. now intros ->. Qed.

Lemma sign_pow_add j k x :
  cmul (sign_pow j) (cmul (sign_pow k) x) = cmul (sign_pow (j + k)) x.
Proof.
  unfold sign_pow. rewrite Z.even_add.
  destruct (Z.even j), (Z.even k); simpl; ring.
Qed.

Lemma sign_pow_same k x : cmul (sign_pow k) (cmul (sign_pow k) x) = x.
Proof. unfold sign_pow. destruct (Z.even k); ring. Qed.

Lemma sign_pow_parity j k : Z.even j = Z.even k -> sign_pow j = sign_pow k.
Proof. unfold sign_pow. now intros ->. Qed.

(** Ring laws by name *)

Lemma cadd_0_r (x : C) : cadd x c0 = x.
Proof. ring. Qed.

Lemma cadd_0_l (x : C) : cadd c0 x = x.
Proof. ring. Qed.

Lemma cmul_0_l (x : C) : cmul c0 x = c0.
Proof. ring. Qed.

Lemma cmul_0_r (x : C) : cmul x c0 = c0.
Proof. ring. Qed.

Lemma cmul_1_l (x : C) : cmul c1 x = x.
Proof. ring. Qed.

(** Sums *)

Lemma csum_acc {A : Type} (f : A -> C) (l : list A) (acc : C) :
  fold_left (fun acc x => cadd acc (f x)) l acc = cadd acc (csum f l).
Proof.
  unfold csum. revert acc. induction l as [| x l IH]; intros acc; simpl.
  - ring.
  - rewrite IH, (IH (cadd c0 (f x))). ring.
Qed.

Lemma csum_nil {A : Type} (f : A -> C) : csum f [] = c0.
Proof. reflexivity. Qed.

Lemma csum_cons {A : Type} (f : A -> C) (x : A) (l : list A) :
  csum f (x :: l) = cadd (f x) (csum f l).
Proof. unfold csum at 1. simpl. rewrite csum_acc. ring. Qed.

Lemma csum_ext {A : Type} (f g : A -> C) (l : list A) :
  (forall x, x ∈ l -> f x = g x) -> csum f l = csum g l.
Proof.
  induction l as [| x l IH]; intros H; [reflexivity |].
  rewrite !csum_cons, H by left. rewrite IH; [reflexivity |].
  intros y Hy. apply H. now right.
Qed.

Lemma csum_zero {A : Type} (f : A -> C) (l : list A) :
  (forall x, x ∈ l -> f x = c0) -> csum f l = c0.
Proof.
  induction l as [| x l IH]; intros H; [reflexivity |].
  rewrite csum_cons, H by left. rewrite IH; [ring |].
  intros y Hy. apply H. now right.
Qed.

(** A sum with one term that is not zero. *)
Lemma csum_single {A : Type} `{EqDecision A} (f : A -> C) (l : list A) (x0 : A) :
  NoDup l -> x0 ∈ l -> (forall x, x ∈ l -> x <> x0 -> f x = c0) ->
  csum f l = f x0.
Proof.
  induction 1 as [| x l Hx Hnd IH]; intros Hin Hz.
  - inversion Hin.
  - rewrite csum_cons. destruct (decide (x = x0)) as [-> | Hne].
    + rewrite csum_zero; [ring |].
      intros y Hy. apply Hz; [now right |]. intros ->. contradiction.
    + rewrite Hz by (left || assumption).
      rewrite IH; [ring | |].
      * inversion Hin; subst; [contradiction | assumption].
      * intros y Hy. apply Hz. now right.
Qed.

End Array_facts.

(** ** The enumerator *)

Lemma elem_of_mode_indices lmax r n m :
  (r, n, m) ∈ mode_indices lmax <->
  1 <= n <= lmax /\ - n <= m <= n /\ r = mode_index n m.
Proof.
  unfold mode_indices. rewrite list_elem_of_In, in_flat_map. split.
  - intros (n' & Hn' & Hin). apply in_map_iff in Hin as (m' & [= <- <- <-] & Hm').
    apply list_elem_of_In, elem_of_seqZ in Hn'.
    apply list_elem_of_In, elem_of_seqZ in Hm'.
    repeat split; lia.
  - intros (Hn & Hm & ->). exists n. split.
    + apply list_elem_of_In, elem_of_seqZ. lia.
    + apply in_map_iff. exists m. split; [reflexivity |].
      apply list_elem_of_In, elem_of_seqZ. lia.
Qed.

Lemma mode_index_bounds lmax n m :
  1 <= n <= lmax -> - n <= m <= n -> 0 <= mode_index n m < lmax * (lmax + 2).
Proof. unfold mode_index. intros Hn Hm. nia. Qed.

Lemma mode_index_conj n m : mode_index n m - 2 * m = mode_index n (- m).
Proof. unfold mode_index. lia. Qed.

Lemma mode_index_inj n m n' m' :
  1 <= n -> - n <= m <= n -> 1 <= n' -> - n' <= m' <= n' ->
  mode_index n m = mode_index n' m' -> n = n' /\ m = m'.
Proof.
  unfold mode_index. intros Hn Hm Hn' Hm' E.
  assert (n = n') as -> by nia. split; [reflexivity | lia].
Qed.

Lemma rmax_to_Lmax_inverts lmax :
  0 <= lmax -> rmax_to_Lmax (lmax * (lmax + 2)) = OK lmax.
Proof.
  intros H. unfold rmax_to_Lmax.
  replace (lmax * (lmax + 2) + 1) with ((lmax + 1) * (lmax + 1)) by ring.
  rewrite Z.sqrt_square by lia.
  replace (lmax + 1 - 1) with lmax by ring.
  rewrite Z.eqb_refl.
  replace (0 <=? lmax * (lmax + 2)) with true by (symmetry; apply Z.leb_le; nia).
  reflexivity.
Qed.

(** ** Loops *)

Section Loop_facts.
Context {num : Numerics}.

Lemma mbind_assoc {A B D : Type} (c : M A) (f : A -> M B) (g : B -> M D) :
  mbind (mbind c f) g = mbind c (fun x => mbind (f x) g).
Proof.
  destruct c as [log [e | x]]; simpl; [reflexivity |].
  destruct (f x) as [log1 [e | y]]; simpl; [reflexivity |].
  destruct (g y) as [log2 r]. now rewrite app_assoc.
Qed.

Lemma mbind_mret_r {A : Type} (c : M A) : mbind c mret = c.
Proof.
  destruct c as [log [e | x]]; simpl; [reflexivity |].
  now rewrite app_nil_r.
Qed.

Lemma mbind_ext {A B : Type} (c : M A) (f g : A -> M B) :
  (forall x, f x = g x) -> mbind c f = mbind c g.
Proof.
  intros H. destruct c as [log [e | x]]; simpl; [reflexivity |].
  now rewrite H.
Qed.

Lemma for_each_app {A S : Type} (l1 l2 : list A) (body : A -> S -> M S) s :
  for_each (l1 ++ l2) body s = mbind (for_each l1 body s) (for_each l2 body).
Proof.
  revert s. induction l1 as [| x l1 IH]; intros s; cbn [for_each app].
  - now rewrite mbind_mret.
  - rewrite mbind_assoc. apply mbind_ext. exact IH.
Qed.

Lemma for_each_flat_map {A B S : Type} (g : A -> list B) (l : list A)
    (body : B -> S -> M S) s :
  for_each (flat_map g l) body s = for_each l (fun x => for_each (g x) body) s.
Proof.
  revert s. induction l as [| x l IH]; intros s; cbn [for_each flat_map].
  - reflexivity.
  - rewrite for_each_app. apply mbind_ext. exact IH.
Qed.

Lemma for_each_map {A B S : Type} (g : A -> B) (l : list A)
    (body : B -> S -> M S) s :
  for_each (map g l) body s = for_each l (fun x => body (g x)) s.
Proof.
  revert s. induction l as [| x l IH]; intros s; cbn [for_each map].
  - reflexivity.
  - apply mbind_ext. exact IH.
Qed.

Lemma for_each_ext {A S : Type} (l : list A) (body1 body2 : A -> S -> M S) s :
  (forall x t, x ∈ l -> body1 x t = body2 x t) ->
  for_each l body1 s = for_each l body2 s.
Proof.
  revert s. induction l as [| x l IH]; intros s H; cbn [for_each].
  - reflexivity.
  - rewrite H by left. apply mbind_ext. intros t. apply IH.
    intros y t' Hy. apply H. now right.
Qed.

(** Writes *)

Lemma shape_apply_writes ws t : shape (apply_writes ws t) = shape t.
Proof.
  revert t. induction ws as [| w ws IH]; intros t; simpl; [reflexivity |].
  now rewrite IH.
Qed.

Lemma wf_apply_writes ws t : wf t -> wf (apply_writes ws t).
Proof.
  revert t. induction ws as [| w ws IH]; intros t H; simpl; [assumption |].
  apply IH. now apply wf_update.
Qed.

Lemma entry_apply_writes ws t l :
  wf t -> Forall (fun w => in_range (shape t) (fst w)) ws -> in_range (shape t) l ->
  entry (apply_writes ws t) l = default (entry t l) (last_write ws l).
Proof.
  revert t. induction ws as [| w ws IH]; intros t Hwf Hws Hl; simpl; [reflexivity |].
  inversion Hws as [| ? ? Hw Hws']; subst.
  rewrite IH; [| now apply wf_update | assumption | assumption].
  destruct (last_write ws l); [reflexivity |]. simpl.
  rewrite entry_update by assumption.
  destruct (decide (l = fst w)) as [-> | Hne].
  - now rewrite decide_True.
  - rewrite decide_False by congruence. reflexivity.
Qed.

Lemma last_write_app ws1 ws2 l :
  last_write (ws1 ++ ws2) l =
  match last_write ws2 l with
  | Some y => Some y
  | None => last_write ws1 l
  end.
Proof.
  induction ws1 as [| w ws1 IH]; simpl.
  - destruct (last_write ws2 l); reflexivity.
  - rewrite IH. destruct (last_write ws2 l); reflexivity.
Qed.

Lemma last_write_None ws l :
  Forall (fun w => fst w <> l) ws -> last_write ws l = None.
Proof.
  induction 1 as [| w ws Hw _ IH]; simpl; [reflexivity |].
  rewrite IH. now rewrite decide_False.
Qed.

Lemma run_stmts_resolved sh sts ws t :
  Forall2 (resolves sh) sts ws -> shape t = sh ->
  run_stmts sts t = OK (apply_writes ws t).
Proof.
  intros H. revert t. induction H as [| st w sts ws [Hi Hv] _ IH]; intros t Ht.
  - reflexivity.
  - simpl. unfold assign. rewrite Hv. simpl.
    rewrite (setitem_update t (fst st) (fst w)) by now rewrite Ht.
    simpl. apply IH. now rewrite shape_update.
Qed.

(** The sixteen assignments, for subscripts in range *)

Ltac index_in_range :=
  unfold cluster_shape; cbn [norm_indices fst snd];
  rewrite ?norm_index_nat by lia; rewrite ?norm_index_Z by lia;
  reflexivity.

Lemma particle_stmts_resolve (N rmax i j : nat) (r n m s v u : Z) (tA tB : C) :
  (i < N)%nat -> (j < N)%nat ->
  0 <= r < Z.of_nat rmax -> 0 <= s < Z.of_nat rmax ->
  0 <= s - 2 * u < Z.of_nat rmax -> 0 <= r - 2 * m < Z.of_nat rmax ->
  Forall2 (resolves (cluster_shape N rmax))
    (particle_stmts (Z.of_nat i) (Z.of_nat j) r n m s v u tA tB)
    (particle_writes i j r n m s v u tA tB).
Proof.
  intros Hi Hj Hr Hs Hcs Hcr.
  unfold particle_stmts, particle_writes, plain_block, block. cbn [app].
  repeat (constructor; [ split; [index_in_range | reflexivity] | ]).
  constructor.
Qed.

Lemma times_coef (a : ndarray) (Na lmax q : nat) (c d : Z) (x : C) :
  wf a -> shape a = [Na; 2%nat; lmax] ->
  (q < Na)%nat -> 0 <= c < 2 -> 0 <= d < Z.of_nat lmax ->
  times x a [Z.of_nat q; c; d] = OK (cmul x (coef a q (Z.to_nat c) d)).
Proof.
  intros Hwf Hsh Hq Hc Hd. unfold times, coef.
  rewrite (getitem_entry a _ [q; Z.to_nat c; Z.to_nat d]); [reflexivity | assumption |].
  rewrite Hsh. cbn [norm_indices].
  rewrite !norm_index_nat by assumption. rewrite !norm_index_Z by lia.
  reflexivity.
Qed.

Lemma sphere_stmts_resolve (a : ndarray) (Na lmax N rmax i j : nat)
    (r n m s v u : Z) (tA tB : C) :
  wf a -> shape a = [Na; 2%nat; lmax] ->
  (i < N)%nat -> (j < N)%nat -> (i < Na)%nat -> (j < Na)%nat ->
  1 <= n <= Z.of_nat lmax -> 1 <= v <= Z.of_nat lmax ->
  0 <= r < Z.of_nat rmax -> 0 <= s < Z.of_nat rmax ->
  0 <= s - 2 * u < Z.of_nat rmax -> 0 <= r - 2 * m < Z.of_nat rmax ->
  Forall2 (resolves (cluster_shape N rmax))
    (sphere_stmts a (Z.of_nat i) (Z.of_nat j) r n m s v u tA tB)
    (sphere_writes a i j r n m s v u tA tB).
Proof.
  intros Hwf Hsh Hi Hj Hi' Hj' Hn Hv Hr Hs Hcs Hcr.
  unfold sphere_stmts, sphere_writes, scaled_block, block. cbn [app].
  repeat (constructor;
    [ split;
      [ index_in_range
      | cbn [fst snd];
        rewrite (times_coef a Na lmax) by (assumption || lia); reflexivity ] | ]).
  constructor.
Qed.

End Loop_facts.

(** ** The loops of the assemblers, iteration by iteration *)

Section Assembly_facts.
Context {num : Numerics}.

Lemma binds_resolve_modes miepy f lmax :
  binds_helpers miepy f -> resolve_modes miepy lmax = OK (mode_indices lmax).
Proof.
  intros (vsh & cls & _ & _ & _ & _ & Hm & _). unfold resolve_modes.
  now rewrite Hm.
Qed.

Lemma binds_resolve_translation miepy f :
  binds_helpers miepy f -> resolve_translation miepy = OK (f, outgoing).
Proof.
  intros (vsh & cls & Hv & _ & _ & Ht & _ & Hc & Ho). unfold resolve_translation.
  rewrite Hv. simpl. rewrite Ht. simpl. rewrite Hc. simpl. now rewrite Ho.
Qed.

Lemma binds_lmax_to_rmax miepy f lmax :
  binds_helpers miepy f ->
  call_vsh miepy "lmax_to_rmax" lmax = OK (lmax * (lmax + 2)).
Proof.
  intros (vsh & cls & Hv & Hl & _). unfold call_vsh.
  rewrite Hv. simpl. now rewrite Hl.
Qed.

Lemma binds_rmax_to_lmax miepy f rmax :
  binds_helpers miepy f ->
  call_vsh miepy "rmax_to_lmax" rmax = rmax_to_Lmax rmax.
Proof.
  intros (vsh & cls & Hv & _ & Hr & _). unfold call_vsh.
  rewrite Hv. simpl. now rewrite Hr.
Qed.

Lemma mode_loops_flat miepy lmax k sep stmts im :
  resolve_modes miepy lmax = OK (mode_indices lmax) ->
  mode_loops miepy lmax k sep stmts im =
  for_each (mode_pairs lmax)
    (fun rs => mode_pair miepy k sep stmts (fst rs) (snd rs)) im.
Proof.
  intros H. unfold mode_loops, mode_pairs.
  rewrite H, mbind_lift_OK, for_each_flat_map.
  apply for_each_ext. intros rnm t _. cbv beta.
  now rewrite mbind_lift_OK, for_each_map.
Qed.

Lemma particle_loops_flat miepy positions lmax k stmts im :
  resolve_modes miepy lmax = OK (mode_indices lmax) ->
  particle_loops miepy positions lmax k stmts im =
  for_each (iterations positions lmax) (iteration_body miepy k stmts) im.
Proof.
  intros H. unfold particle_loops, iterations, pairs.
  rewrite !for_each_flat_map.
  apply for_each_ext. intros i t Hi.
  rewrite for_each_map.
  apply for_each_ext. intros j t' Hj.
  apply elem_of_seq in Hi, Hj.
  destruct (lookup_lt_is_Some_2 positions i) as [pi Hpi]; [lia |].
  destruct (lookup_lt_is_Some_2 positions j) as [pj Hpj]; [lia |].
  unfold row. cbn [fst snd]. rewrite Hpi, Hpj, !mbind_lift_OK.
  now rewrite mode_loops_flat, for_each_map by assumption.
Qed.

(** The iterations: which particles, which modes. *)
Lemma elem_of_pairs N i j : (i, j) ∈ pairs N <-> (i < j < N)%nat.
Proof.
  unfold pairs. rewrite list_elem_of_In, in_flat_map. split.
  - intros (i' & Hi' & Hin). apply in_map_iff in Hin as (j' & [= <- <-] & Hj').
    apply list_elem_of_In, elem_of_seq in Hi', Hj'. lia.
  - intros H. exists i. split; [apply list_elem_of_In, elem_of_seq; lia |].
    apply in_map_iff. exists j. split; [reflexivity |].
    apply list_elem_of_In, elem_of_seq. lia.
Qed.

Lemma elem_of_mode_pairs lmax rnm svu :
  (rnm, svu) ∈ mode_pairs lmax <->
  rnm ∈ mode_indices lmax /\ svu ∈ mode_indices lmax.
Proof.
  unfold mode_pairs. rewrite list_elem_of_In, in_flat_map. split.
  - intros (x & Hx & Hin). apply in_map_iff in Hin as (y & [= <- <-] & Hy).
    split; now apply list_elem_of_In.
  - intros [Hr Hs]. exists rnm. split; [now apply list_elem_of_In |].
    apply in_map_iff. exists svu. split; [reflexivity | now apply list_elem_of_In].
Qed.

Lemma elem_of_iterations positions lmax it :
  it ∈ iterations positions lmax ->
  (it_i it < it_j it < length positions)%nat /\
  it_rnm it ∈ mode_indices lmax /\ it_svu it ∈ mode_indices lmax /\
  exists pi pj, positions !! it_i it = Some pi /\ positions !! it_j it = Some pj /\
                it_sep it = separation pi pj.
Proof.
  unfold iterations. rewrite list_elem_of_In, in_flat_map.
  intros ([i j] & Hij & Hin). apply list_elem_of_In, elem_of_pairs in Hij.
  cbn [fst snd] in Hin.
  destruct (positions !! i) as [pi |] eqn:Hpi; [| destruct Hin].
  destruct (positions !! j) as [pj |] eqn:Hpj; [| destruct Hin].
  apply in_map_iff in Hin as ([rnm svu] & <- & Hrs).
  apply list_elem_of_In, elem_of_mode_pairs in Hrs as [Hr Hs]. simpl.
  repeat split; try assumption; try lia. eauto.
Qed.

(** One iteration, for statements that resolve to writes. *)
Lemma iteration_body_writes miepy f k stmts it im sh
    (writes : C -> C -> list write) :
  binds_helpers miepy f ->
  shape im = sh ->
  (forall tA tB,
     let '(r, n, m) := it_rnm it in
     let '(s, v, u) := it_svu it in
     Forall2 (resolves sh)
       (stmts (Z.of_nat (it_i it)) (Z.of_nat (it_j it)) r n m s v u tA tB)
       (writes tA tB)) ->
  iteration_body miepy k stmts it im =
  (iteration_calls k it,
   OK (if skipped (it_rnm it) (it_svu it) then im
       else
         let '(r, n, m) := it_rnm it in
         let '(s, v, u) := it_svu it in
         let '(r_ji, theta_ji, phi_ji) := it_sep it in
         let AB := f m n u v r_ji theta_ji phi_ji k outgoing in
         apply_writes (writes (fst AB) (snd AB)) im)).
Proof.
  intros Hb Hsh Hres. unfold iteration_body, iteration_calls, mode_pair, skipped.
  destruct (it_rnm it) as [[r n] m], (it_svu it) as [[s v] u],
           (it_sep it) as [[r_ji theta_ji] phi_ji].
  destruct (s - 2 * u <? r); [reflexivity |].
  rewrite (binds_resolve_translation miepy f Hb), mbind_lift_OK.
  unfold translate. cbn [fst snd mbind OK lift].
  erewrite run_stmts_resolved; [reflexivity | apply Hres | assumption].
Qed.

End Assembly_facts.

Section Cluster_facts.
Context {num : Numerics}.

(** The subscripts of an iteration are in range. *)
Lemma iteration_bounds positions lmax it :
  it ∈ iterations positions lmax ->
  let '(r, n, m) := it_rnm it in
  let '(s, v, u) := it_svu it in
  (it_i it < it_j it < length positions)%nat /\
  (1 <= n <= lmax /\ - n <= m <= n /\ r = mode_index n m) /\
  (1 <= v <= lmax /\ - v <= u <= v /\ s = mode_index v u) /\
  0 <= r < lmax * (lmax + 2) /\ 0 <= s < lmax * (lmax + 2) /\
  0 <= s - 2 * u < lmax * (lmax + 2) /\ 0 <= r - 2 * m < lmax * (lmax + 2).
Proof.
  intros H. apply elem_of_iterations in H as (Hij & Hr & Hs & _).
  destruct (it_rnm it) as [[r n] m], (it_svu it) as [[s v] u].
  apply elem_of_mode_indices in Hr as (Hn & Hm & ->).
  apply elem_of_mode_indices in Hs as (Hv & Hu & ->).
  rewrite !mode_index_conj.
  pose proof (mode_index_bounds lmax n m Hn Hm).
  pose proof (mode_index_bounds lmax v u Hv Hu).
  pose proof (mode_index_bounds lmax n (- m) Hn ltac:(lia)).
  pose proof (mode_index_bounds lmax v (- u) Hv ltac:(lia)).
  repeat split; lia.
Qed.

(** The loops succeed and keep every invariant that the writes of each
    iteration keep; the log is the calls of the iterations in order. *)
Lemma loops_inv miepy f positions lmax k stmts
    (writes : iteration -> C -> C -> list write) sh (P : ndarray -> Prop) im0 :
  binds_helpers miepy f ->
  (forall it tA tB, it ∈ iterations positions lmax ->
     let '(r, n, m) := it_rnm it in
     let '(s, v, u) := it_svu it in
     Forall2 (resolves sh)
       (stmts (Z.of_nat (it_i it)) (Z.of_nat (it_j it)) r n m s v u tA tB)
       (writes it tA tB)) ->
  (forall it tA tB im, it ∈ iterations positions lmax ->
     P im -> wf im -> shape im = sh -> P (apply_writes (writes it tA tB) im)) ->
  P im0 -> wf im0 -> shape im0 = sh ->
  exists im',
    particle_loops miepy positions lmax k stmts im0 =
      (cluster_calls positions lmax k, OK im') /\
    P im' /\ wf im' /\ shape im' = sh.
Proof.
  intros Hb Hres Hkeep HP Hwf Hsh.
  rewrite particle_loops_flat by (eapply binds_resolve_modes; eassumption).
  unfold cluster_calls.
  destruct (for_each_inv (fun im => P im /\ wf im /\ shape im = sh)
              (iteration_calls k) (iterations positions lmax)
              (iteration_body miepy k stmts) im0) as (im' & E & HP');
    [| repeat split; assumption | exists im'; tauto].
  intros it im Hit (HPim & Hwfim & Hshim).
  rewrite (iteration_body_writes miepy f k stmts it im sh (writes it)
             Hb Hshim).
  - eexists. split; [reflexivity |].
    destruct (skipped (it_rnm it) (it_svu it)); [repeat split; assumption |].
    destruct (it_rnm it) as [[r n] m], (it_svu it) as [[s v] u],
             (it_sep it) as [[r_ji theta_ji] phi_ji].
    cbv zeta.
    repeat split;
      [now apply Hkeep | now apply wf_apply_writes | now rewrite shape_apply_writes].
  - intros tA tB. now apply Hres.
Qed.

Lemma rmax_of_Z lmax : Z.of_nat (rmax_of lmax) = Z.of_nat lmax * (Z.of_nat lmax + 2).
Proof. unfold rmax_of. lia. Qed.

Lemma sphere_resolves positions a Na lmax it tA tB :
  wf a -> shape a = [Na; 2%nat; lmax] -> (length positions <= Na)%nat ->
  it ∈ iterations positions (Z.of_nat lmax) ->
  let '(r, n, m) := it_rnm it in
  let '(s, v, u) := it_svu it in
  Forall2 (resolves (cluster_shape (length positions) (rmax_of lmax)))
    (sphere_stmts a (Z.of_nat (it_i it)) (Z.of_nat (it_j it)) r n m s v u tA tB)
    (sphere_it_writes a it tA tB).
Proof.
  intros Hwf Hsh HN Hit. pose proof (iteration_bounds _ _ _ Hit) as Hb.
  unfold sphere_it_writes.
  destruct (it_rnm it) as [[r n] m], (it_svu it) as [[s v] u].
  destruct Hb as (Hij & (Hn & Hm & Hr) & (Hv & Hu & Hs) & B1 & B2 & B3 & B4).
  apply (sphere_stmts_resolve a Na lmax); rewrite ?rmax_of_Z; (assumption || lia).
Qed.

Lemma particle_resolves positions lmax it tA tB :
  it ∈ iterations positions (Z.of_nat lmax) ->
  let '(r, n, m) := it_rnm it in
  let '(s, v, u) := it_svu it in
  Forall2 (resolves (cluster_shape (length positions) (rmax_of lmax)))
    (particle_stmts (Z.of_nat (it_i it)) (Z.of_nat (it_j it)) r n m s v u tA tB)
    (particle_it_writes it tA tB).
Proof.
  intros Hit. pose proof (iteration_bounds _ _ _ Hit) as Hb.
  unfold particle_it_writes.
  destruct (it_rnm it) as [[r n] m], (it_svu it) as [[s v] u].
  destruct Hb as (Hij & (Hn & Hm & Hr) & (Hv & Hu & Hs) & B1 & B2 & B3 & B4).
  apply particle_stmts_resolve; rewrite ?rmax_of_Z; (assumption || lia).
Qed.

Lemma shape_last_3 (a : ndarray) d1 d2 d3 :
  shape a = [d1; d2; d3] -> shape_last a = OK d3.
Proof. intros H. unfold shape_last. now rewrite H. Qed.

Lemma to_dim_rmax lmax :
  to_dim (Z.of_nat lmax * (Z.of_nat lmax + 2)) = OK (rmax_of lmax).
Proof.
  unfold to_dim, rmax_of.
  replace (0 <=? _) with true by (symmetry; apply Z.leb_le; nia).
  reflexivity.
Qed.

(** [sphere_cluster_tmatrix] on coefficients [a[Na,2,lmax]] for at most
    [Na] particles: it succeeds, its calls are those of the iterations,
    and the result is the identity plus the matrix [im] that the loops
    leave, which satisfies every invariant of the writes. *)
Lemma sphere_cluster_tmatrix_inv miepy f positions a k Na lmax (P : ndarray -> Prop) :
  let sh := cluster_shape (length positions) (rmax_of lmax) in
  binds_helpers miepy f ->
  wf a -> shape a = [Na; 2%nat; lmax] -> (length positions <= Na)%nat ->
  (forall it tA tB im, it ∈ iterations positions (Z.of_nat lmax) ->
     P im -> wf im -> shape im = sh ->
     P (apply_writes (sphere_it_writes a it tA tB) im)) ->
  P (np_zeros sh) ->
  exists im T,
    sphere_cluster_tmatrix miepy positions a k =
      (cluster_calls positions (Z.of_nat lmax) k, OK T) /\
    P im /\ wf im /\ shape im = sh /\ wf T /\ shape T = sh /\
    forall l, in_range sh l ->
      entry T l = cadd (entry (identity_tensor (length positions) (rmax_of lmax)) l)
                       (entry im l).
Proof.
  intros sh Hb Hwf Hsh HN Hkeep H0.
  destruct (loops_inv miepy f positions (Z.of_nat lmax) k (sphere_stmts a)
              (sphere_it_writes a) sh P (np_zeros sh) Hb)
    as (im & Him & HP & Hwfim & Hshim);
    [ intros; now apply (sphere_resolves positions a Na lmax)
    | assumption | assumption | apply wf_zeros | reflexivity |].
  destruct (np_add_same_shape (identity_tensor (length positions) (rmax_of lmax)) im)
    as (T & HT & HshT & HwfT & Hent); [now rewrite Hshim |].
  exists im, T. unfold sphere_cluster_tmatrix.
  rewrite (shape_last_3 a _ _ _ Hsh), mbind_lift_OK.
  rewrite (binds_lmax_to_rmax miepy f _ Hb), mbind_lift_OK.
  rewrite to_dim_rmax, mbind_lift_OK.
  fold sh. rewrite (mbind_OK _ _ _ _ [] (OK T) Him).
  - rewrite app_nil_r. repeat split; assumption.
  - rewrite HT. reflexivity.
Qed.

Lemma in_range_cluster N rmax l :
  in_range (cluster_shape N rmax) l <->
  exists i a r j c s, l = [i; a; r; j; c; s] /\
    (i < N)%nat /\ (a < 2)%nat /\ (r < rmax)%nat /\
    (j < N)%nat /\ (c < 2)%nat /\ (s < rmax)%nat.
Proof.
  unfold in_range, cluster_shape. split.
  - intros H.
    repeat match goal with
           | H : Forall2 _ (_ :: _) _ |- _ =>
               apply Forall2_cons_inv_l in H as (? & ? & ? & H & ->)
           | H : Forall2 _ [] _ |- _ => apply Forall2_nil_inv_l in H as ->
           end.
    do 6 eexists. repeat split; eassumption.
  - intros (i & a & r & j & c & s & -> & Hi & Ha & Hr & Hj & Hc & Hs).
    repeat (constructor; [assumption |]). constructor.
Qed.

Lemma entry_identity N rmax i a r j c s :
  (i < N)%nat -> (a < 2)%nat -> (r < rmax)%nat ->
  (j < N)%nat -> (c < 2)%nat -> (s < rmax)%nat ->
  entry (identity_tensor N rmax) [i; a; r; j; c; s] =
  if decide (i = j /\ a = c /\ r = s) then c1 else c0.
Proof.
  intros. unfold identity_tensor. rewrite entry_tabulate; [reflexivity |].
  apply in_range_cluster. do 6 eexists. repeat split; eassumption.
Qed.

Lemma shape_last_5 (a : ndarray) d1 d2 d3 d4 d5 :
  shape a = [d1; d2; d3; d4; d5] -> shape_last a = OK d5.
Proof. intros H. unfold shape_last. now rewrite H. Qed.

Lemma broadcast_dim_same d : broadcast_dim d d = OK d.
Proof. unfold broadcast_dim. now rewrite decide_True. Qed.

(** The contraction of [particle_cluster_tmatrix] for operands whose
    shapes fit. *)
Lemma einsum_fit (x y : ndarray) N rmax :
  shape x = cluster_shape N rmax -> shape y = [N; 2%nat; rmax; 2%nat; rmax] ->
  exists t, einsum_iabjcd_jcdef x y = OK t /\ wf t /\
    shape t = cluster_shape N rmax /\
    forall i a b j e f,
      (i < N)%nat -> (a < 2)%nat -> (b < rmax)%nat ->
      (j < N)%nat -> (e < 2)%nat -> (f < rmax)%nat ->
      entry t [i; a; b; j; e; f] =
      csum (fun cd : nat * nat =>
              cmul (entry x [i; a; b; j; fst cd; snd cd])
                   (entry y [j; fst cd; snd cd; e; f]))
           (list_prod (seq 0 2) (seq 0 rmax)).
Proof.
  intros Hx Hy. unfold einsum_iabjcd_jcdef. rewrite Hx, Hy.
  unfold cluster_shape. rewrite !broadcast_dim_same. cbn [rbind OK].
  eexists. split; [reflexivity |]. split; [apply wf_tabulate |].
  split; [reflexivity |].
  intros i a b j e f Hi Ha Hb Hj He Hf.
  rewrite entry_tabulate
    by (apply in_range_cluster; do 6 eexists; repeat split; eassumption).
  apply csum_ext. intros [c d] Hcd.
  apply list_elem_of_In, in_prod_iff in Hcd as [Hc Hd].
  apply list_elem_of_In, elem_of_seq in Hc, Hd. cbn [fst snd].
  rewrite !clamp_in_range; [reflexivity | |];
    repeat (constructor; [lia |]); constructor.
Qed.

(** [particle_cluster_tmatrix] on T-matrices [tmatrix[N,2,rmax,2,rmax]]
    for the [N] particles, with [rmax] the count for [lmax]: it succeeds,
    its calls are those of the iterations, and the result is the identity
    plus the contraction of the matrix [im] that the loops leave with the
    T-matrices. *)
Lemma particle_cluster_tmatrix_inv miepy f positions tmatrix k lmax
    (P : ndarray -> Prop) :
  let N := length positions in
  let rmax := rmax_of lmax in
  let sh := cluster_shape N rmax in
  binds_helpers miepy f ->
  shape tmatrix = [N; 2%nat; rmax; 2%nat; rmax] ->
  (forall it tA tB im, it ∈ iterations positions (Z.of_nat lmax) ->
     P im -> wf im -> shape im = sh ->
     P (apply_writes (particle_it_writes it tA tB) im)) ->
  P (np_zeros sh) ->
  exists im T,
    particle_cluster_tmatrix miepy positions tmatrix k =
      (cluster_calls positions (Z.of_nat lmax) k, OK T) /\
    P im /\ wf im /\ shape im = sh /\ wf T /\ shape T = sh /\
    forall i a b j e g,
      (i < N)%nat -> (a < 2)%nat -> (b < rmax)%nat ->
      (j < N)%nat -> (e < 2)%nat -> (g < rmax)%nat ->
      entry T [i; a; b; j; e; g] =
      cadd (entry (identity_tensor N rmax) [i; a; b; j; e; g])
           (csum (fun cd : nat * nat =>
                    cmul (entry im [i; a; b; j; fst cd; snd cd])
                         (entry tmatrix [j; fst cd; snd cd; e; g]))
                 (list_prod (seq 0 2) (seq 0 rmax))).
Proof.
  intros N rmax sh Hb Hsh Hkeep H0.
  destruct (loops_inv miepy f positions (Z.of_nat lmax) k
              (fun i j => particle_stmts i j)
              particle_it_writes sh P (np_zeros sh) Hb)
    as (im & Him & HP & Hwfim & Hshim);
    [ intros; now apply particle_resolves
    | assumption | assumption | apply wf_zeros | reflexivity |].
  destruct (einsum_fit im tmatrix N rmax Hshim Hsh) as (t & Ht & Hwft & Hsht & Hentt).
  destruct (np_add_same_shape (identity_tensor N rmax) t)
    as (T & HT & HshT & HwfT & Hent); [now rewrite Hsht |].
  exists im, T. unfold particle_cluster_tmatrix.
  rewrite (shape_last_5 tmatrix _ _ _ _ _ Hsh), mbind_lift_OK.
  rewrite (binds_rmax_to_lmax miepy f _ Hb). unfold rmax. rewrite rmax_of_Z.
  rewrite rmax_to_Lmax_inverts by lia. rewrite mbind_lift_OK.
  fold rmax N sh. rewrite (mbind_OK _ _ _ _ [] (OK T) Him).
  - rewrite app_nil_r. repeat split; try assumption.
    intros i a b j e g Hi Ha Hb' Hj He Hg.
    rewrite Hent, Hentt by
      (assumption || (apply in_range_cluster; do 6 eexists; repeat split; eassumption)).
    reflexivity.
  - rewrite Ht, mbind_lift_OK, HT. reflexivity.
Qed.

End Cluster_facts.

(** ** One particle *)

Section Single_particle.
Context {num : Numerics}.

Add Ring C_as_ring_single : C_ring.

Lemma in_range_3 d1 d2 d3 l :
  in_range [d1; d2; d3] l <->
  exists i a r, l = [i; a; r] /\ (i < d1)%nat /\ (a < d2)%nat /\ (r < d3)%nat.
Proof.
  unfold in_range. split.
  - intros H.
    repeat match goal with
           | H : Forall2 _ (_ :: _) _ |- _ =>
               apply Forall2_cons_inv_l in H as (? & ? & ? & H & ->)
           | H : Forall2 _ [] _ |- _ => apply Forall2_nil_inv_l in H as ->
           end.
    do 3 eexists. repeat split; eassumption.
  - intros (i & a & r & -> & Hi & Ha & Hr).
    repeat (constructor; [assumption |]). constructor.
Qed.

(** The identity operator maps every coefficient tensor to itself. *)
Lemma tensordot_identity N rmax (x : ndarray) :
  wf x -> shape x = [N; 2%nat; rmax] ->
  tensordot (identity_tensor N rmax) x = x.
Proof.
  intros Hwf Hsh. apply array_ext; [apply wf_tabulate | assumption | |].
  - unfold tensordot. rewrite shape_tabulate, Hsh. reflexivity.
  - unfold tensordot at 1. rewrite shape_tabulate, Hsh.
    cbn [identity_tensor shape tabulate cluster_shape length Nat.sub take].
    intros l Hl. fold (cluster_shape N rmax). fold (identity_tensor N rmax).
    unfold tensordot. rewrite Hsh.
    cbn [identity_tensor shape tabulate cluster_shape length Nat.sub take].
    fold (cluster_shape N rmax). fold (identity_tensor N rmax).
    rewrite entry_tabulate by assumption.
    pose proof (ravel_lt _ _ Hl) as Hlt.
    rewrite (csum_single _ _ (ravel [N; 2%nat; rmax] l)).
    + rewrite unravel_ravel by assumption.
      apply in_range_3 in Hl as (i & a & r & -> & Hi & Ha & Hr). cbn [app].
      rewrite entry_identity by assumption.
      rewrite decide_True by tauto. ring.
    + apply NoDup_seq.
    + apply elem_of_seq. lia.
    + intros p Hp Hne. apply elem_of_seq in Hp.
      pose proof (unravel_in_range [N; 2%nat; rmax] p ltac:(lia)) as Hu.
      assert (unravel [N; 2%nat; rmax] p <> l) as Hne'.
      { intros E. apply Hne. rewrite <- E. symmetry. apply ravel_unravel. lia. }
      apply in_range_3 in Hl as (i & a & r & -> & Hi & Ha & Hr).
      apply in_range_3 in Hu as (j & c & s & Eu & Hj & Hc & Hs).
      rewrite Eu in *. cbn [app].
      rewrite entry_identity by assumption.
      rewrite decide_False; [ring |].
      intros (-> & -> & ->). now apply Hne'.
Qed.

(** With one particle the loops have no iteration. *)
Lemma particle_loops_single miepy (p : Rl * Rl * Rl) lmax k stmts im :
  particle_loops miepy [p] lmax k stmts im = mret im.
Proof. reflexivity. Qed.

Lemma identity_plus_zeros N rmax :
  np_add (identity_tensor N rmax) (np_zeros (cluster_shape N rmax)) =
  OK (identity_tensor N rmax).
Proof.
  destruct (np_add_same_shape (identity_tensor N rmax) (np_zeros (cluster_shape N rmax)))
    as (T & HT & Hsh & Hwf & Hent); [reflexivity |].
  rewrite HT. f_equal.
  apply array_ext; [assumption | apply wf_tabulate | assumption |].
  intros l Hl. rewrite Hsh in Hl. rewrite Hent by assumption.
  rewrite entry_zeros. ring.
Qed.

End Single_particle.

(** ** The names that the package binds *)

Section Package_names.
Context {num : Numerics}.

Lemma pkg_lmax_to_rmax f x :
  call_vsh (miepy_pkg f) "lmax_to_rmax" x = Err AttributeError.
Proof. vm_compute. reflexivity. Qed.

Lemma pkg_rmax_to_lmax f x :
  call_vsh (miepy_pkg f) "rmax_to_lmax" x = Err AttributeError.
Proof. vm_compute. reflexivity. Qed.

Lemma shape_last_nonempty (a : ndarray) :
  shape a <> [] -> exists d, shape_last a = OK d.
Proof.
  intros H. unfold shape_last.
  destruct (last (shape a)) as [d |] eqn:E; [eauto |].
  apply last_None in E. contradiction.
Qed.

Lemma miepy_with_helpers_binds f : binds_helpers (miepy_with_helpers f) f.
Proof.
  eexists _, _. repeat split; vm_compute; reflexivity.
Qed.

(** On the package as it is, the first lookup of each assembler fails,
    before any loop and any call. *)
Lemma delivered_sphere_raises f positions (a : ndarray) k lmax :
  shape_last a = OK lmax ->
  sphere_cluster_tmatrix (miepy_pkg f) positions a k = ([], Err AttributeError).
Proof.
  intros H. unfold sphere_cluster_tmatrix. rewrite H, mbind_lift_OK.
  now rewrite pkg_lmax_to_rmax.
Qed.

Lemma delivered_particle_raises f positions (tmatrix : ndarray) k rmax :
  shape_last tmatrix = OK rmax ->
  particle_cluster_tmatrix (miepy_pkg f) positions tmatrix k = ([], Err AttributeError).
Proof.
  intros H. unfold particle_cluster_tmatrix. rewrite H, mbind_lift_OK.
  now rewrite pkg_rmax_to_lmax.
Qed.

End Package_names.

(** * The claims *)

(** ** C10: the helper names are not bound *)

(** C10.  [miepy/vsh/__init__.py] binds [Lmax_to_rmax] and [rmax_to_Lmax],
    not the [lmax_to_rmax] and [rmax_to_lmax] that the assemblers (and
    [forces.torque]) look up, and [miepy/__init__.py] binds neither
    [mode_indices] nor [VSH_mode].  So on the package as it is, for
    arrays with at least one axis, both assemblers and both solvers raise
    [AttributeError], with no call of the translation operator. *)
Theorem helper_names_are_unbound {num : Numerics}
    (tensorsolve : ndarray -> ndarray -> result ndarray)
    (vsh_translation : translation) (positions : list (Rl * Rl * Rl))
    (a tmatrix p_src : ndarray) (k : K) :
  shape a <> [] -> shape tmatrix <> [] ->
  let miepy := miepy_pkg vsh_translation in
  let vsh := miepy_vsh vsh_translation in
  getattr miepy "vsh" = OK vsh /\
  getattr vsh "lmax_to_rmax" = Err AttributeError /\
  getattr vsh "rmax_to_lmax" = Err AttributeError /\
  getattr vsh "Lmax_to_rmax" = OK (PyIntFun Lmax_to_rmax) /\
  getattr vsh "rmax_to_Lmax" = OK (PyIntFun rmax_to_Lmax) /\
  getattr miepy "mode_indices" = Err AttributeError /\
  getattr miepy "VSH_mode" = Err AttributeError /\
  sphere_cluster_tmatrix miepy positions a k = ([], Err AttributeError) /\
  particle_cluster_tmatrix miepy positions tmatrix k = ([], Err AttributeError) /\
  solve_sphere_cluster tensorsolve miepy positions a p_src k = ([], Err AttributeError) /\
  solve_particle_cluster tensorsolve miepy positions tmatrix p_src k
    = ([], Err AttributeError).
Proof.
  intros Ha Ht miepy vsh.
  destruct (shape_last_nonempty a Ha) as [lmax Hlmax].
  destruct (shape_last_nonempty tmatrix Ht) as [rmax Hrmax].
  assert (sphere_cluster_tmatrix miepy positions a k = ([], Err AttributeError)) as Hs.
  { unfold sphere_cluster_tmatrix. rewrite Hlmax, mbind_lift_OK.
    unfold miepy. now rewrite pkg_lmax_to_rmax. }
  assert (particle_cluster_tmatrix miepy positions tmatrix k = ([], Err AttributeError)) as Hp.
  { unfold particle_cluster_tmatrix. rewrite Hrmax, mbind_lift_OK.
    unfold miepy. now rewrite pkg_rmax_to_lmax. }
  repeat split; try (vm_compute; reflexivity); try assumption.
  - unfold solve_sphere_cluster. now rewrite Hs.
  - unfold solve_particle_cluster. now rewrite Hp.
Qed.

Lemma helper_names_are_unbound_witness :
  sphere_cluster_tmatrix (num := integer_numerics) (miepy_pkg example_translation)
    two_particles example_mie 1 = ([], Err AttributeError).
Proof.
  refine (proj1 (proj2 (proj2 (proj2 (proj2 (proj2 (proj2 (proj2
    (helper_names_are_unbound (num := integer_numerics) integer_tensorsolve
       example_translation two_particles example_mie example_mie example_source 1
       _ _)))))))));
    discriminate.
Defined.

(** ** C5: one particle *)

(** C5.  On the package as it is, one particle is no exception to C10: the
    assembler raises [AttributeError] at its first lookup,
    [miepy.vsh.lmax_to_rmax], and so does the solver; no operator is
    returned.  On every package that binds the names the assembler looks
    up, the claim holds: for one particle, whatever the coefficients and the
    wavenumber, the assembled operator is the identity, 1 where the two
    triples (polarization, mode) agree and 0 elsewhere, with no call of the
    translation operator; and [solve_sphere_cluster] returns the source
    unchanged where [tensorsolve] returns the one solution of the system. *)
Theorem single_particle_is_identity {num : Numerics}
    (tensorsolve : ndarray -> ndarray -> result ndarray)
    (vsh_translation : translation) (p : Rl * Rl * Rl)
    (a p_src : ndarray) (k : K) (lmax : nat) :
  shape_last a = OK lmax ->
  let rmax := rmax_of lmax in
  let T := identity_tensor 1 rmax in
  (sphere_cluster_tmatrix (miepy_pkg vsh_translation) [p] a k = ([], Err AttributeError) /\
   solve_sphere_cluster tensorsolve (miepy_pkg vsh_translation) [p] a p_src k
     = ([], Err AttributeError)) /\
  forall (miepy : pyobj) (f : translation),
    binds_helpers miepy f ->
    sphere_cluster_tmatrix miepy [p] a k = ([], OK T) /\
    shape T = [1; 2; rmax; 1; 2; rmax]%nat /\
    (forall pol r pol' s,
       (pol < 2)%nat -> (r < rmax)%nat -> (pol' < 2)%nat -> (s < rmax)%nat ->
       entry T [0; pol; r; 0; pol'; s]%nat
       = if decide (pol = pol' /\ r = s) then c1 else c0) /\
    (wf p_src -> shape p_src = [1; 2; rmax]%nat ->
     tensorsolve_exact tensorsolve T p_src ->
     solve_sphere_cluster tensorsolve miepy [p] a p_src k = ([], OK p_src)).
Proof.
  intros Hlast rmax T. split.
  { pose proof (delivered_sphere_raises vsh_translation [p] a k lmax Hlast) as Hd.
    split; [exact Hd |]. unfold solve_sphere_cluster. now rewrite Hd. }
  intros miepy f Hb.
  assert (sphere_cluster_tmatrix miepy [p] a k = ([], OK T)) as HT.
  { unfold sphere_cluster_tmatrix. rewrite Hlast, mbind_lift_OK.
    rewrite (binds_lmax_to_rmax miepy f _ Hb), mbind_lift_OK.
    rewrite to_dim_rmax, mbind_lift_OK, particle_loops_single, mbind_mret.
    cbn [length]. fold rmax. now rewrite identity_plus_zeros. }
  split; [exact HT |]. split; [reflexivity |]. split.
  - intros pol r pol' s Hpol Hr Hpol' Hs. unfold T.
    rewrite entry_identity by (assumption || lia).
    destruct (decide (pol = pol' /\ r = s)) as [[-> ->] | Hne].
    + now rewrite decide_True.
    + rewrite decide_False; [reflexivity | tauto].
  - intros Hwf Hsh Hexact. unfold solve_sphere_cluster. rewrite HT, mbind_nil_OK.
    rewrite (Hexact p_src); [reflexivity | |].
    + repeat split; [assumption | now rewrite Hsh |].
      now apply tensordot_identity.
    + intros y (Hwfy & Hshy & Hy).
      rewrite <- Hy. symmetry. apply tensordot_identity; [assumption |].
      rewrite Hshy, Hsh. reflexivity.
Qed.

Lemma single_particle_is_identity_witness :
  sphere_cluster_tmatrix (num := integer_numerics) (miepy_pkg example_translation)
    one_particle example_mie 1
  = ([], Err AttributeError) /\
  solve_sphere_cluster (num := integer_numerics) integer_tensorsolve
    (miepy_with_helpers example_translation) one_particle example_mie example_source 1
  = ([], OK example_source).
Proof.
  destruct (single_particle_is_identity (num := integer_numerics) integer_tensorsolve
              example_translation (0, 0, 0) example_mie example_source 1 1%nat eq_refl)
    as [[Hd _] Hb].
  split; [exact Hd |].
  refine (proj2 (proj2 (proj2
    (Hb (miepy_with_helpers example_translation) example_translation
        (miepy_with_helpers_binds _)))) _ _ _).
  - reflexivity.
  - reflexivity.
  - intros x Hx Huniq. rewrite <- (Huniq example_source).
    + vm_compute. reflexivity.
    + repeat split.
Defined.

(** ** The calls of the translation operator *)

Section Call_facts.
Context {num : Numerics}.

Lemma iterations_elem_of positions lmax i j pi pj rnm svu :
  (i < j < length positions)%nat ->
  positions !! i = Some pi -> positions !! j = Some pj ->
  rnm ∈ mode_indices lmax -> svu ∈ mode_indices lmax ->
  Iteration i j (separation pi pj) rnm svu ∈ iterations positions lmax.
Proof.
  intros Hij Hpi Hpj Hr Hs. unfold iterations.
  apply list_elem_of_In, in_flat_map. exists (i, j). split.
  - apply list_elem_of_In, elem_of_pairs. assumption.
  - cbn [fst snd]. rewrite Hpi, Hpj. apply in_map_iff.
    exists (rnm, svu). split; [reflexivity |].
    apply list_elem_of_In, elem_of_mode_pairs. now split.
Qed.

Lemma iteration_calls_call_of k it :
  iteration_calls k it =
  if skipped (it_rnm it) (it_svu it) then []
  else [call_of k (it_sep it) (it_rnm it) (it_svu it)].
Proof.
  unfold iteration_calls, call_of.
  destruct (skipped _ _); [reflexivity |].
  destruct (it_rnm it) as [[r n] m], (it_svu it) as [[s v] u],
           (it_sep it) as [[r_ji theta_ji] phi_ji].
  reflexivity.
Qed.

Lemma elem_of_cluster_calls positions lmax k c :
  c ∈ cluster_calls positions lmax k <->
  exists i j pi pj rnm svu,
    (i < j < length positions)%nat /\
    positions !! i = Some pi /\ positions !! j = Some pj /\
    rnm ∈ mode_indices lmax /\ svu ∈ mode_indices lmax /\
    skipped rnm svu = false /\
    c = call_of k (separation pi pj) rnm svu.
Proof.
  unfold cluster_calls. rewrite list_elem_of_In, in_concat. split.
  - intros (l & Hl & Hc). apply in_map_iff in Hl as (it & <- & Hit).
    rewrite iteration_calls_call_of in Hc.
    apply list_elem_of_In, elem_of_iterations in Hit
      as (Hij & Hr & Hs & pi & pj & Hpi & Hpj & Hsep).
    destruct (skipped (it_rnm it) (it_svu it)) eqn:Hsk; [destruct Hc |].
    destruct Hc as [<- | []].
    exists (it_i it), (it_j it), pi, pj, (it_rnm it), (it_svu it).
    rewrite <- Hsep. repeat split; assumption || lia.
  - intros (i & j & pi & pj & rnm & svu & Hij & Hpi & Hpj & Hr & Hs & Hsk & ->).
    exists (iteration_calls k (Iteration i j (separation pi pj) rnm svu)). split.
    + apply in_map_iff. eexists. split; [reflexivity |].
      apply list_elem_of_In. now apply iterations_elem_of.
    + rewrite iteration_calls_call_of. cbn [it_rnm it_svu it_sep].
      rewrite Hsk. now left.
Qed.

Lemma skipped_false r n m s v u :
  skipped (r, n, m) (s, v, u) = false <-> r <= s - 2 * u.
Proof. unfold skipped. rewrite Z.ltb_ge. reflexivity. Qed.

End Call_facts.

Section Runs.
Context {num : Numerics}.

Lemma sphere_runs miepy f positions a k Na lmax :
  binds_helpers miepy f ->
  wf a -> shape a = [Na; 2%nat; lmax] -> (length positions <= Na)%nat ->
  exists T,
    sphere_cluster_tmatrix miepy positions a k =
      (cluster_calls positions (Z.of_nat lmax) k, OK T) /\
    wf T /\ shape T = cluster_shape (length positions) (rmax_of lmax).
Proof.
  intros Hb Hwf Hsh HN.
  destruct (sphere_cluster_tmatrix_inv miepy f positions a k Na lmax (fun _ => True)
              Hb Hwf Hsh HN) as (im & T & HT & _ & _ & _ & HwfT & HshT & _);
    [trivial | trivial |].
  exists T. repeat split; assumption.
Qed.

Lemma particle_runs miepy f positions tmatrix k lmax :
  binds_helpers miepy f ->
  shape tmatrix = [length positions; 2%nat; rmax_of lmax; 2%nat; rmax_of lmax] ->
  exists T,
    particle_cluster_tmatrix miepy positions tmatrix k =
      (cluster_calls positions (Z.of_nat lmax) k, OK T) /\
    wf T /\ shape T = cluster_shape (length positions) (rmax_of lmax).
Proof.
  intros Hb Hsh.
  destruct (particle_cluster_tmatrix_inv miepy f positions tmatrix k lmax (fun _ => True)
              Hb Hsh) as (im & T & HT & _ & _ & _ & HwfT & HshT & _);
    [trivial | trivial |].
  exists T. repeat split; assumption.
Qed.

End Runs.

(** ** C2: which mode pairs reach the translation operator *)

(** C2, as the code has it.  On a package that binds the names the
    assemblers look up, and for inputs of the documented shapes, in both
    assemblers the translation operator is called, for each pair of
    particles [i < j], once for each ordered pair of modes [(r, n, m)],
    [(s, v, u)] with [r <= s - 2 u]: the guard compares [r] with the index
    [s - 2 u] of the mode [(v, -u)], not with [s]. *)
Theorem calls_follow_the_guard {num : Numerics}
    (miepy : pyobj) (f : translation) (positions : list (Rl * Rl * Rl))
    (a tmatrix : ndarray) (k : K) (Na lmax : nat) :
  binds_helpers miepy f ->
  wf a -> shape a = [Na; 2%nat; lmax] -> (length positions <= Na)%nat ->
  shape tmatrix = [length positions; 2%nat; rmax_of lmax; 2%nat; rmax_of lmax] ->
  calls (sphere_cluster_tmatrix miepy positions a k)
    = cluster_calls positions (Z.of_nat lmax) k /\
  calls (particle_cluster_tmatrix miepy positions tmatrix k)
    = cluster_calls positions (Z.of_nat lmax) k /\
  forall c, c ∈ cluster_calls positions (Z.of_nat lmax) k <->
    exists i j pi pj r n m s v u,
      (i < j < length positions)%nat /\
      positions !! i = Some pi /\ positions !! j = Some pj /\
      (r, n, m) ∈ mode_indices (Z.of_nat lmax) /\
      (s, v, u) ∈ mode_indices (Z.of_nat lmax) /\
      r <= s - 2 * u /\
      c = call_of k (separation pi pj) (r, n, m) (s, v, u).
Proof.
  intros Hb Hwf Hsh HN Hsht.
  destruct (sphere_runs miepy f positions a k Na lmax Hb Hwf Hsh HN) as (T & HT & _).
  destruct (particle_runs miepy f positions tmatrix k lmax Hb Hsht) as (T' & HT' & _).
  rewrite HT, HT'. split; [reflexivity |]. split; [reflexivity |].
  intros c. rewrite elem_of_cluster_calls. split.
  - intros (i & j & pi & pj & [[r n] m] & [[s v] u] & Hij & Hpi & Hpj & Hr & Hs & Hsk & ->).
    apply skipped_false in Hsk.
    exists i, j, pi, pj, r, n, m, s, v, u. repeat split; assumption || lia.
  - intros (i & j & pi & pj & r & n & m & s & v & u & Hij & Hpi & Hpj & Hr & Hs & Hg & ->).
    exists i, j, pi, pj, (r, n, m), (s, v, u).
    repeat split; try assumption; try lia. now apply skipped_false.
Qed.

Lemma calls_follow_the_guard_witness :
  calls (sphere_cluster_tmatrix (num := integer_numerics)
           (miepy_with_helpers example_translation) two_particles example_mie 1)
  = cluster_calls (num := integer_numerics) two_particles 1 1.
Proof.
  refine (proj1 (calls_follow_the_guard (num := integer_numerics)
    (miepy_with_helpers example_translation) example_translation two_particles
    example_mie (diagonal_tmatrix example_mie 2 1) 1 2%nat 1%nat
    (miepy_with_helpers_binds _) _ _ _ _)).
  - reflexivity.
  - reflexivity.
  - simpl. lia.
  - reflexivity.
Defined.

(** C2, as it is stated, for two particles and [lmax = 1].  On the package
    as it is no call is made at all, though the mode pair [r = 0], [s = 0]
    has [s >= r].  On the package with the names bound the calls are those
    of six mode pairs: the pair of [r = 1] (mode [(1, 0)]) and [s = 2] (mode
    [(1, 1)]) has [s >= r] and is skipped; the pair of [r = 1] and [s = 0]
    (mode [(1, -1)]) has [s < r] and is translated. *)
Lemma calls_follow_the_guard_counterexample :
  let delivered := sphere_cluster_tmatrix (num := integer_numerics)
                     (miepy_pkg example_translation) two_particles example_mie 1 in
  let log := calls (sphere_cluster_tmatrix (num := integer_numerics)
                      (miepy_with_helpers example_translation)
                      two_particles example_mie 1) in
  ((0, 1, -1) ∈ mode_indices 1 /\ 0 <= 0 /\ calls delivered = []) /\
  map (fun c => (call_m c, call_n c, call_u c, call_v c)) log
    = [(-1, 1, -1, 1); (-1, 1, 0, 1); (-1, 1, 1, 1);
       (0, 1, -1, 1); (0, 1, 0, 1); (1, 1, -1, 1)] /\
  ((1, 1, 0) ∈ mode_indices 1 /\ (2, 1, 1) ∈ mode_indices 1 /\ 1 <= 2 /\
   Forall (fun c => (call_m c, call_n c, call_u c, call_v c) <> (0, 1, 1, 1)) log) /\
  ((1, 1, 0) ∈ mode_indices 1 /\ (0, 1, -1) ∈ mode_indices 1 /\ 0 < 1 /\
   Exists (fun c => (call_m c, call_n c, call_u c, call_v c) = (0, 1, -1, 1)) log).
Proof.
  intros delivered log. split.
  { split; [apply elem_of_mode_indices; unfold mode_index; lia |].
    split; [lia |]. unfold delivered.
    now rewrite (delivered_sphere_raises (num := integer_numerics) example_translation
                   two_particles example_mie 1 1%nat eq_refl). }
  split; [vm_compute; reflexivity |].
  split; (split; [apply elem_of_mode_indices; unfold mode_index; lia |]);
    (split; [apply elem_of_mode_indices; unfold mode_index; lia |]);
    (split; [lia |]);
    apply (bool_decide_unpack _); vm_compute; exact I.
Qed.

(** ** C7: particles at one position *)

(** C7, as the code has it.  The assemblers make no check of the positions.
    On a package that binds the names they look up, for any positions, two
    particles at one position included, and coefficients [a[Na,2,lmax]] for
    at least as many particles (T-matrices [tmatrix[N,2,rmax,2,rmax]] with
    [rmax = lmax (lmax + 2)]), they run all their loops and return a tensor;
    for two particles at one position [p] and [lmax >= 1] the translation
    operator is called with the separation of [p] from itself.  No
    [ConfigurationError] is raised. *)
Theorem positions_are_not_checked {num : Numerics}
    (miepy : pyobj) (f : translation) (positions : list (Rl * Rl * Rl))
    (a tmatrix : ndarray) (k : K) (Na lmax : nat) :
  binds_helpers miepy f ->
  wf a -> shape a = [Na; 2%nat; lmax] -> (length positions <= Na)%nat ->
  shape tmatrix = [length positions; 2%nat; rmax_of lmax; 2%nat; rmax_of lmax] ->
  (exists T, sphere_cluster_tmatrix miepy positions a k
             = (cluster_calls positions (Z.of_nat lmax) k, OK T)) /\
  (exists T, particle_cluster_tmatrix miepy positions tmatrix k
             = (cluster_calls positions (Z.of_nat lmax) k, OK T)) /\
  forall i j p,
    (i < j < length positions)%nat ->
    positions !! i = Some p -> positions !! j = Some p -> (1 <= lmax)%nat ->
    call_of k (separation p p) (0, 1, -1) (0, 1, -1)
      ∈ cluster_calls positions (Z.of_nat lmax) k.
Proof.
  intros Hb Hwf Hsh HN Hsht.
  destruct (sphere_runs miepy f positions a k Na lmax Hb Hwf Hsh HN) as (T & HT & _).
  destruct (particle_runs miepy f positions tmatrix k lmax Hb Hsht) as (T' & HT' & _).
  split; [eauto |]. split; [eauto |].
  intros i j p Hij Hpi Hpj Hl. apply elem_of_cluster_calls.
  exists i, j, p, p, (0, 1, -1), (0, 1, -1).
  assert ((0, 1, -1) ∈ mode_indices (Z.of_nat lmax)) as Hm.
  { apply elem_of_mode_indices. unfold mode_index. lia. }
  repeat split; try assumption; lia.
Qed.

Lemma positions_are_not_checked_witness :
  exists T, sphere_cluster_tmatrix (num := integer_numerics)
              (miepy_with_helpers example_translation) coincident_particles example_mie 1
            = (cluster_calls (num := integer_numerics) coincident_particles 1 1, OK T).
Proof.
  refine (proj1 (positions_are_not_checked (num := integer_numerics)
    (miepy_with_helpers example_translation) example_translation coincident_particles
    example_mie (diagonal_tmatrix example_mie 2 1) 1 2%nat 1%nat
    (miepy_with_helpers_binds _) _ _ _ _)).
  - reflexivity.
  - reflexivity.
  - simpl. lia.
  - reflexivity.
Defined.

(** C7, as it is stated: two particles at the position (1, 2, 3).  On the
    package as it is the assembler raises [AttributeError], as for any
    other positions, not [ConfigurationError].  On the package with the
    names bound it raises nothing: it calls the translation operator six
    times, each time with the distance 0, and returns a tensor. *)
Lemma positions_are_not_checked_counterexample :
  let delivered := sphere_cluster_tmatrix (num := integer_numerics)
                     (miepy_pkg example_translation)
                     coincident_particles example_mie 1 in
  let run := sphere_cluster_tmatrix (num := integer_numerics)
               (miepy_with_helpers example_translation)
               coincident_particles example_mie 1 in
  (outcome delivered = Err AttributeError /\ outcome delivered <> Err ConfigurationError) /\
  outcome run <> Err ConfigurationError /\
  (exists T, outcome run = OK T) /\
  map call_r (calls run) = [0; 0; 0; 0; 0; 0].
Proof.
  intros delivered run. split.
  { unfold delivered.
    rewrite (delivered_sphere_raises (num := integer_numerics) example_translation
               coincident_particles example_mie 1 1%nat eq_refl).
    split; [reflexivity | discriminate]. }
  assert (exists T, outcome run = OK T) as Hok
    by (apply is_OK_true; vm_compute; reflexivity).
  split; [destruct Hok as [T ->]; discriminate |].
  split; [exact Hok |]. vm_compute. reflexivity.
Qed.

(** ** C6: the shape of the operator and its diagonal blocks *)

Section Diagonal_blocks.
Context {num : Numerics}.

Add Ring C_as_ring_diag : C_ring.

Lemma resolves_in_range sh sts ws :
  Forall2 (resolves sh) sts ws -> Forall (fun w => in_range sh (fst w)) ws.
Proof.
  induction 1 as [| st w sts ws [Hi _] _ IH]; constructor; [| assumption].
  now apply norm_indices_in_range in Hi.
Qed.

(** A write elsewhere leaves an entry as it is. *)
Lemma apply_writes_frame ws t l :
  wf t -> Forall (fun w => in_range (shape t) (fst w)) ws -> in_range (shape t) l ->
  Forall (fun w => fst w <> l) ws ->
  entry (apply_writes ws t) l = entry t l.
Proof.
  intros Hwf Hws Hl Hne. rewrite entry_apply_writes by assumption.
  now rewrite last_write_None.
Qed.


Lemma particle_writes_cross i j r n m s v u tA tB :
  i <> j -> Forall crosses (particle_writes i j r n m s v u tA tB).
Proof.
  intros Hij. unfold particle_writes, plain_block, block, crosses. cbn [app].
  repeat (constructor; [cbn [fst nth]; congruence |]). constructor.
Qed.

Lemma diagonal_blocks_kept N rmax ws im :
  wf im -> shape im = cluster_shape N rmax ->
  Forall (fun w => in_range (cluster_shape N rmax) (fst w)) ws ->
  Forall crosses ws ->
  diagonal_blocks_zero N rmax im ->
  diagonal_blocks_zero N rmax (apply_writes ws im).
Proof.
  intros Hwf Hsh Hin Hcross Hz i pol r pol' s Hi Hpol Hr Hpol' Hs.
  rewrite apply_writes_frame; [now apply Hz | assumption | now rewrite Hsh | |].
  - rewrite Hsh. apply in_range_cluster. do 6 eexists. repeat split; eassumption.
  - eapply Forall_impl; [exact Hcross |].
    intros w Hw E. apply Hw. rewrite E. reflexivity.
Qed.

End Diagonal_blocks.

Section Structure.
Context {num : Numerics}.

Add Ring C_as_ring_structure : C_ring.




End Structure.



(** ** C8: shapes that do not agree *)

Section Shape_facts.
Context {num : Numerics}.

Lemma mbind_Err {A B : Type} (c : M A) (f : A -> M B) log e :
  c = (log, Err e) -> mbind c f = (log, Err e).
Proof. now intros ->. Qed.

Lemma for_each_cons_Err {A S : Type} (x : A) (l : list A) (body : A -> S -> M S) s log e :
  body x s = (log, Err e) -> for_each (x :: l) body s = (log, Err e).
Proof. intros H. cbn [for_each]. now apply mbind_Err. Qed.



End Shape_facts.




(** * Further properties of the assemblers *)

(** ** The value of an entry after one iteration *)

Section Placement_facts.
Context {num : Numerics}.

Add Ring C_as_ring_placement : C_ring.

Lemma last_write_block p q x y (v00 v01 v10 v11 : C) p' pol X' q' pol' Y' :
  (pol < 2)%nat -> (pol' < 2)%nat ->
  last_write (block p q x y v00 v01 v10 v11) [p'; pol; X'; q'; pol'; Y'] =
  if decide (p' = p /\ q' = q /\ X' = Z.to_nat x /\ Y' = Z.to_nat y)
  then Some (pick pol pol' v00 v01 v10 v11) else None.
Proof.
  intros Hpol Hpol'. unfold block. cbn [last_write fst snd].
  destruct pol as [| [| pol]]; [| | lia];
    (destruct pol' as [| [| pol']]; [| | lia]);
    repeat case_decide; simplify_eq; try reflexivity; exfalso; intuition congruence.
Qed.

(** The last write of an iteration of [sphere_cluster_tmatrix] at an index:
    the conjugate placements are written after the direct ones. *)
Lemma last_write_sphere a i j r n m s v u tA tB p' pol X' q' pol' Y' :
  (pol < 2)%nat -> (pol' < 2)%nat ->
  last_write (sphere_writes a i j r n m s v u tA tB) [p'; pol; X'; q'; pol'; Y'] =
  if decide (p' = j /\ q' = i /\ X' = Z.to_nat (s - 2 * u) /\ Y' = Z.to_nat (r - 2 * m))
  then Some (cmul (cmul (sign_pow (m + u + n + v)) (transfer pol pol' tA tB))
                  (coef a i pol' (n - 1)))
  else if decide (p' = i /\ q' = j /\ X' = Z.to_nat (s - 2 * u) /\ Y' = Z.to_nat (r - 2 * m))
  then Some (cmul (cmul (sign_pow (m + u + cross_pol pol pol')) (transfer pol pol' tA tB))
                  (coef a j pol' (n - 1)))
  else if decide (p' = j /\ q' = i /\ X' = Z.to_nat r /\ Y' = Z.to_nat s)
  then Some (cmul (cmul (sign_pow (n + v + cross_pol pol pol')) (transfer pol pol' tA tB))
                  (coef a i pol' (v - 1)))
  else if decide (p' = i /\ q' = j /\ X' = Z.to_nat r /\ Y' = Z.to_nat s)
  then Some (cmul (transfer pol pol' tA tB) (coef a j pol' (v - 1)))
  else None.
Proof.
  intros Hpol Hpol'. unfold sphere_writes, scaled_block.
  rewrite !last_write_app, !last_write_block by assumption.
  destruct pol as [| [| pol]]; [| | lia];
    (destruct pol' as [| [| pol']]; [| | lia]);
    cbn [pick transfer cross_pol]; rewrite ?Z.add_0_r;
    repeat case_decide; reflexivity.
Qed.

(** The same for [particle_cluster_tmatrix]. *)
Lemma last_write_particle i j r n m s v u tA tB p' pol X' q' pol' Y' :
  (pol < 2)%nat -> (pol' < 2)%nat ->
  last_write (particle_writes i j r n m s v u tA tB) [p'; pol; X'; q'; pol'; Y'] =
  if decide (p' = j /\ q' = i /\ X' = Z.to_nat (s - 2 * u) /\ Y' = Z.to_nat (r - 2 * m))
  then Some (cmul (sign_pow (m + u + n + v)) (transfer pol pol' tA tB))
  else if decide (p' = i /\ q' = j /\ X' = Z.to_nat (s - 2 * u) /\ Y' = Z.to_nat (r - 2 * m))
  then Some (cmul (sign_pow (m + u + cross_pol pol pol')) (transfer pol pol' tA tB))
  else if decide (p' = j /\ q' = i /\ X' = Z.to_nat r /\ Y' = Z.to_nat s)
  then Some (cmul (sign_pow (n + v + cross_pol pol pol')) (transfer pol pol' tA tB))
  else if decide (p' = i /\ q' = j /\ X' = Z.to_nat r /\ Y' = Z.to_nat s)
  then Some (transfer pol pol' tA tB)
  else None.
Proof.
  intros Hpol Hpol'. unfold particle_writes, plain_block.
  rewrite !last_write_app, !last_write_block by assumption.
  destruct pol as [| [| pol]]; [| | lia];
    (destruct pol' as [| [| pol']]; [| | lia]);
    cbn [pick transfer cross_pol]; rewrite ?Z.add_0_r;
    repeat case_decide; reflexivity.
Qed.

End Placement_facts.



(** ** Spheres as particles with diagonal T-matrices *)

Section Refinement.
Context {num : Numerics}.

Add Ring C_as_ring_refinement : C_ring.

Lemma mode_degree_index lmax r n m :
  (r, n, m) ∈ mode_indices lmax -> mode_degree lmax (Z.to_nat r) = n.
Proof.
  intros H. pose proof H as H0.
  apply elem_of_mode_indices in H0 as (Hn & Hm & ->).
  pose proof (mode_index_bounds lmax n m Hn Hm) as Hb.
  unfold mode_degree. rewrite Z2Nat.id by lia.
  destruct (find _ (mode_indices lmax)) as [[[r' n'] m'] |] eqn:E.
  - apply find_some in E as [Hin E]. cbn [fst] in E. apply Z.eqb_eq in E. subst r'.
    apply list_elem_of_In, elem_of_mode_indices in Hin as (Hn' & Hm' & E).
    apply mode_index_inj in E; [| lia ..]. symmetry. apply E.
  - apply list_elem_of_In in H.
    apply (find_none _ _ E (mode_index n m, n, m)) in H.
    cbn [fst] in H. now rewrite Z.eqb_refl in H.
Qed.

Lemma mode_degree_conj lmax r n m :
  (r, n, m) ∈ mode_indices lmax -> mode_degree lmax (Z.to_nat (r - 2 * m)) = n.
Proof.
  intros H. apply elem_of_mode_indices in H as (Hn & Hm & ->).
  rewrite mode_index_conj. apply (mode_degree_index lmax _ n (- m)).
  apply elem_of_mode_indices. repeat split; lia.
Qed.

Lemma apply_writes_scaled (g : list nat -> C) ws1 ws2 t1 t2 :
  Forall2 (scaled_by g) ws1 ws2 ->
  Forall (fun w => in_range (shape t1) (fst w)) ws1 ->
  wf t1 -> wf t2 -> shape t1 = shape t2 ->
  (forall l, in_range (shape t1) l -> entry t1 l = cmul (entry t2 l) (g l)) ->
  forall l, in_range (shape t1) l ->
    entry (apply_writes ws1 t1) l = cmul (entry (apply_writes ws2 t2) l) (g l).
Proof.
  intros H. revert t1 t2.
  induction H as [| w1 w2 ws1 ws2 [Hf Hv] _ IH]; intros t1 t2 Hin Hwf1 Hwf2 Hsh Hrel l Hl.
  - now apply Hrel.
  - inversion Hin as [| ? ? Hw1 Hin']; subst. cbn [apply_writes].
    apply (IH (update t1 (fst w1) (snd w1)) (update t2 (fst w2) (snd w2)));
      [exact Hin' | now apply wf_update | now apply wf_update | exact Hsh | | exact Hl].
    intros l' Hl'. cbn [shape update] in Hl'.
    rewrite (entry_update t1) by assumption.
    rewrite (entry_update t2) by (rewrite <- ?Hsh, <- ?Hf; assumption).
    rewrite <- Hf. destruct (decide (l' = fst w1)) as [-> | Hne];
      [exact Hv | now apply Hrel].
Qed.

Lemma scaled_block_plain a lmax p q x y d tA tB :
  mode_degree lmax (Z.to_nat y) = d + 1 ->
  Forall2 (scaled_by (column_coef a lmax))
    (scaled_block a p q x y d tA tB) (plain_block p q x y tA tB).
Proof.
  intros Hd. unfold scaled_block, plain_block, block.
  repeat (constructor;
          [split; [reflexivity |]; cbn [fst snd column_coef]; rewrite Hd;
           replace (d + 1 - 1) with d by lia; reflexivity |]).
  constructor.
Qed.

Lemma sphere_writes_scaled a lmax i j r n m s v u tA tB :
  (r, n, m) ∈ mode_indices lmax -> (s, v, u) ∈ mode_indices lmax ->
  Forall2 (scaled_by (column_coef a lmax))
    (sphere_writes a i j r n m s v u tA tB) (particle_writes i j r n m s v u tA tB).
Proof.
  intros Hr Hs. unfold sphere_writes, particle_writes.
  pose proof (mode_degree_index lmax s v u Hs) as D1.
  pose proof (mode_degree_conj lmax r n m Hr) as D2.
  repeat apply Forall2_app; apply scaled_block_plain; lia.
Qed.

Lemma Forall2_same {A : Type} (Q : A -> A -> Prop) (l : list A) :
  (forall x, x ∈ l -> Q x x) -> Forall2 Q l l.
Proof.
  induction l as [| x l IH]; intros H; constructor.
  - apply H. left.
  - apply IH. intros y Hy. apply H. now right.
Qed.

(** The loops of the two assemblers, run side by side: each entry of the
    matrix of [sphere_cluster_tmatrix] is the entry of the matrix of
    [particle_cluster_tmatrix] times the Mie coefficient of its column. *)
Lemma loops_scaled miepy f positions a k Na lmax :
  let sh := cluster_shape (length positions) (rmax_of lmax) in
  binds_helpers miepy f ->
  wf a -> shape a = [Na; 2%nat; lmax] -> (length positions <= Na)%nat ->
  exists im1 im2,
    particle_loops miepy positions (Z.of_nat lmax) k (sphere_stmts a) (np_zeros sh)
      = (cluster_calls positions (Z.of_nat lmax) k, OK im1) /\
    particle_loops miepy positions (Z.of_nat lmax) k (fun i j => particle_stmts i j)
      (np_zeros sh)
      = (cluster_calls positions (Z.of_nat lmax) k, OK im2) /\
    wf im1 /\ wf im2 /\ shape im1 = sh /\ shape im2 = sh /\
    forall l, in_range sh l ->
      entry im1 l = cmul (entry im2 l) (column_coef a (Z.of_nat lmax) l).
Proof.
  intros sh Hb Hwf Hsh HN.
  destruct (loops_inv miepy f positions (Z.of_nat lmax) k (sphere_stmts a)
              (sphere_it_writes a) sh (fun _ => True) (np_zeros sh) Hb)
    as (im1 & H1 & _ & Hwf1 & Hsh1);
    [ intros; now apply (sphere_resolves positions a Na lmax)
    | trivial | trivial | apply wf_zeros | reflexivity |].
  destruct (loops_inv miepy f positions (Z.of_nat lmax) k (fun i j => particle_stmts i j)
              particle_it_writes sh (fun _ => True) (np_zeros sh) Hb)
    as (im2 & H2 & _ & Hwf2 & Hsh2);
    [ intros; now apply particle_resolves
    | trivial | trivial | apply wf_zeros | reflexivity |].
  exists im1, im2. repeat split; try assumption.
  pose (R := fun t1 t2 : ndarray =>
               wf t1 /\ wf t2 /\ shape t1 = sh /\ shape t2 = sh /\
               forall l, in_range sh l ->
                 entry t1 l = cmul (entry t2 l) (column_coef a (Z.of_nat lmax) l)).
  destruct (for_each_rel
              (fun it1 it2 => it1 = it2 /\ it1 ∈ iterations positions (Z.of_nat lmax))
              R (fun _ _ => True)
              (iterations positions (Z.of_nat lmax)) (iterations positions (Z.of_nat lmax))
              (iteration_body miepy k (sphere_stmts a))
              (iteration_body miepy k (fun i j => particle_stmts i j))
              (np_zeros sh) (np_zeros sh))
    as (g1 & g2 & s1 & s2 & K1 & K2 & _ & HR); [trivial | trivial | | | |].
  - intros it ? t1 t2 [<- Hit] (Hw1 & Hw2 & Hs1 & Hs2 & Hrel).
    pose proof (sphere_resolves positions a Na lmax it) as Hres1.
    pose proof (particle_resolves positions lmax it) as Hres2.
    pose proof (iteration_bounds _ _ _ Hit) as Hbd.
    rewrite (iteration_body_writes miepy f k (sphere_stmts a) it t1 sh
               (sphere_it_writes a it) Hb Hs1)
      by (intros; now apply Hres1).
    rewrite (iteration_body_writes miepy f k (fun i j => particle_stmts i j) it t2 sh
               (particle_it_writes it) Hb Hs2)
      by (intros; now apply Hres2).
    do 4 eexists. split; [reflexivity |]. split; [reflexivity |]. split; [trivial |].
    destruct (skipped (it_rnm it) (it_svu it)); [repeat split; assumption |].
    unfold sphere_it_writes, particle_it_writes in *.
    destruct (it_rnm it) as [[r n] m] eqn:Ernm, (it_svu it) as [[s v] u] eqn:Esvu,
             (it_sep it) as [[r_ji theta_ji] phi_ji].
    cbv zeta.
    set (AB := f m n u v r_ji theta_ji phi_ji k outgoing).
    destruct Hbd as (_ & (Hn & Hm & Er) & (Hv & Hu & Es) & _).
    repeat split.
    + now apply wf_apply_writes.
    + now apply wf_apply_writes.
    + now rewrite shape_apply_writes.
    + now rewrite shape_apply_writes.
    + intros l Hl. rewrite <- Hs1 in Hl.
      apply apply_writes_scaled; try assumption.
      * apply sphere_writes_scaled; apply elem_of_mode_indices; repeat split; lia.
      * rewrite Hs1. eapply resolves_in_range. now apply (Hres1 (fst AB) (snd AB)).
      * now rewrite Hs1, Hs2.
      * intros l' Hl'. apply Hrel. now rewrite <- Hs1.
  - apply Forall2_same. intros it Hit. now split.
  - repeat split; try apply wf_zeros.
    intros l _. rewrite !entry_zeros. ring.
  - rewrite particle_loops_flat in H1, H2
      by (eapply binds_resolve_modes; eassumption).
    rewrite K1 in H1. rewrite K2 in H2.
    injection H1 as _ <-. injection H2 as _ <-.
    apply HR.
Qed.

Lemma NoDup_list_prod {A B : Type} (l : list A) (l' : list B) :
  NoDup l -> NoDup l' -> NoDup (list_prod l l').
Proof.
  intros Hl Hl'. induction Hl as [| x l Hx _ IH]; cbn [list_prod]; [constructor |].
  apply NoDup_app. split; [| split; [| exact IH]].
  - apply NoDup_fmap_2; [| assumption]. intros y y' [= ->]. reflexivity.
  - intros [x' y] H1 H2.
    apply list_elem_of_fmap in H1 as (y' & [= -> ->] & _).
    apply list_elem_of_In, in_prod_iff in H2 as [H2 _].
    apply Hx. now apply list_elem_of_In.
Qed.

Lemma entry_diagonal_tmatrix a N lmax j c d e g :
  (j < N)%nat -> (c < 2)%nat -> (d < rmax_of lmax)%nat ->
  (e < 2)%nat -> (g < rmax_of lmax)%nat ->
  entry (diagonal_tmatrix a N lmax) [j; c; d; e; g] =
  if decide (c = e /\ d = g)
  then coef a j c (mode_degree (Z.of_nat lmax) d - 1) else c0.
Proof.
  intros. unfold diagonal_tmatrix. rewrite entry_tabulate; [reflexivity |].
  repeat (constructor; [assumption |]). constructor.
Qed.

End Refinement.

(** X2.  The two assemblers agree on spheres, in the arithmetic of the
    model: scalars of a commutative ring, that is finite values whose
    products with zero are zero (a translation coefficient that is infinite
    or NaN is outside it: there [0 * inf] is NaN in the contraction of line
    135).  On a package that binds the names the assemblers look up,
    [particle_cluster_tmatrix] on the T-matrices that carry the Mie
    coefficients [a] on their diagonal (and zero elsewhere) returns the
    operator of [sphere_cluster_tmatrix] on [a], entry for entry, after the
    same calls of the translation operator. *)
Theorem diagonal_tmatrices_give_the_sphere_operator {num : Numerics}
    (miepy : pyobj) (f : translation) (positions : list (Rl * Rl * Rl))
    (a : ndarray) (k : K) (Na lmax : nat) :
  binds_helpers miepy f ->
  wf a -> shape a = [Na; 2%nat; lmax] -> (length positions <= Na)%nat ->
  particle_cluster_tmatrix miepy positions
    (diagonal_tmatrix a (length positions) lmax) k
  = sphere_cluster_tmatrix miepy positions a k.
Proof.
  intros Hb Hwf Hsh HN.
  set (N := length positions). set (rmax := rmax_of lmax).
  destruct (loops_scaled miepy f positions a k Na lmax Hb Hwf Hsh HN)
    as (im1 & im2 & H1 & H2 & Hwf1 & Hwf2 & Hs1 & Hs2 & Hrel).
  fold N rmax in H1, H2, Hs1, Hs2, Hrel.
  destruct (np_add_same_shape (identity_tensor N rmax) im1)
    as (T1 & HT1 & HshT1 & HwfT1 & Hent1); [now rewrite Hs1 |].
  destruct (einsum_fit im2 (diagonal_tmatrix a N lmax) N rmax Hs2 eq_refl)
    as (t & Ht & Hwft & Hsht & Hentt).
  destruct (np_add_same_shape (identity_tensor N rmax) t)
    as (T2 & HT2 & HshT2 & HwfT2 & Hent2); [now rewrite Hsht |].
  assert (T2 = T1) as ->.
  { apply array_ext; [assumption | assumption | congruence |].
    intros l Hl. rewrite HshT2 in Hl. rewrite Hent1, Hent2 by assumption.
    f_equal. cbn [shape identity_tensor tabulate] in Hl.
    rewrite (Hrel l Hl).
    apply in_range_cluster in Hl
      as (i & pol & r & j & pol' & s & -> & Hi & Hpol & Hr & Hj & Hpol' & Hs).
    rewrite Hentt by assumption.
    rewrite (csum_single _ _ (pol', s)).
    - cbn [fst snd column_coef].
      rewrite entry_diagonal_tmatrix by assumption.
      now rewrite decide_True.
    - apply NoDup_list_prod; apply NoDup_seq.
    - apply list_elem_of_In, in_prod_iff. split; apply list_elem_of_In, elem_of_seq; lia.
    - intros [c d] Hcd Hne.
      apply list_elem_of_In, in_prod_iff in Hcd as [Hc Hd].
      apply list_elem_of_In, elem_of_seq in Hc, Hd. cbn [fst snd].
      rewrite entry_diagonal_tmatrix by (assumption || lia).
      rewrite decide_False; [apply cmul_0_r |].
      intros [-> ->]. now apply Hne. }
  unfold particle_cluster_tmatrix, sphere_cluster_tmatrix.
  rewrite (shape_last_3 a _ _ _ Hsh), mbind_lift_OK.
  rewrite (binds_lmax_to_rmax miepy f _ Hb), mbind_lift_OK.
  rewrite to_dim_rmax, mbind_lift_OK.
  rewrite (shape_last_5 (diagonal_tmatrix a N lmax) _ _ _ _ _ eq_refl), mbind_lift_OK.
  rewrite (binds_rmax_to_lmax miepy f _ Hb), rmax_of_Z.
  rewrite rmax_to_Lmax_inverts by lia. rewrite mbind_lift_OK.
  fold N rmax.
  rewrite (mbind_OK _ _ _ _ [] (OK T1) H1) by (now rewrite HT1).
  rewrite (mbind_OK _ _ _ _ [] (OK T1) H2); [reflexivity |].
  now rewrite Ht, mbind_lift_OK, HT2.
Qed.

Lemma diagonal_tmatrices_give_the_sphere_operator_witness :
  particle_cluster_tmatrix (num := integer_numerics)
    (miepy_with_helpers example_translation) two_particles
    (diagonal_tmatrix example_mie (length two_particles) 1) 1
  = sphere_cluster_tmatrix (num := integer_numerics)
      (miepy_with_helpers example_translation) two_particles example_mie 1.
Proof.
  refine (diagonal_tmatrices_give_the_sphere_operator (num := integer_numerics)
    (miepy_with_helpers example_translation) example_translation two_particles
    example_mie 1 2%nat 1%nat (miepy_with_helpers_binds _) eq_refl eq_refl _).
  simpl. lia.
Defined.

(** ** Two particles with their labels exchanged *)

Section Relabelling_facts.
Context {num : Numerics}.

Add Ring C_as_ring_relabel : C_ring.

Lemma sign_pow_shift x y : sign_pow (x + 2 * y) = sign_pow x.
Proof.
  apply sign_pow_parity. rewrite Z.even_add, Z.even_mul. simpl.
  now destruct (Z.even x).
Qed.

Lemma transfer_parity pol pol' j (tA tB : C) :
  (pol < 2)%nat -> (pol' < 2)%nat ->
  transfer pol pol' (cmul (sign_pow j) tA) (cmul (sign_pow (j + 1)) tB)
  = cmul (sign_pow (j + cross_pol pol pol')) (transfer pol pol' tA tB).
Proof.
  intros Hpol Hpol'.
  destruct pol as [| [| pol]]; [| | lia];
    (destruct pol' as [| [| pol']]; [| | lia]);
    cbn [transfer pick cross_pol]; rewrite ?Z.add_0_r; reflexivity.
Qed.

Lemma coef_swap_rows (a : ndarray) lmax q c d :
  wf a -> shape a = [2%nat; 2%nat; lmax] ->
  (q < 2)%nat -> (c < 2)%nat -> 0 <= d < Z.of_nat lmax ->
  coef (swap_rows a) q c d = coef a (1 - q) c d.
Proof.
  intros Hwf Hsh Hq Hc Hd. unfold coef, swap_rows. rewrite Hsh.
  rewrite entry_tabulate; [reflexivity |].
  repeat (constructor; [lia |]). constructor.
Qed.

Lemma wf_swap_rows (a : ndarray) : wf (swap_rows a).
Proof. apply wf_tabulate. Qed.

Lemma in_range_relabel rmax l :
  in_range (cluster_shape 2 rmax) l -> in_range (cluster_shape 2 rmax) (relabel l).
Proof.
  intros H. apply in_range_cluster in H
    as (i & a & r & j & c & s & -> & Hi & Ha & Hr & Hj & Hc & Hs).
  apply in_range_cluster. cbn [relabel]. do 6 eexists.
  repeat split; try eassumption; lia.
Qed.

(** The writes of an iteration for the exchanged particles are the writes
    of the iteration for the particles, at the relabelled indices. *)
Lemma last_write_relabelled (a : ndarray) lmax rmax r n m s v u (tA tB : C) l :
  wf a -> shape a = [2%nat; 2%nat; lmax] ->
  1 <= n <= Z.of_nat lmax -> 1 <= v <= Z.of_nat lmax ->
  in_range (cluster_shape 2 rmax) l ->
  last_write (sphere_writes (swap_rows a) 0 1 r n m s v u
                (cmul (sign_pow (n + v)) tA) (cmul (sign_pow (n + v + 1)) tB)) l
  = last_write (sphere_writes a 0 1 r n m s v u tA tB) (relabel l).
Proof.
  intros Hwf Hsh Hn Hv Hl.
  apply in_range_cluster in Hl
    as (p' & pol & X' & q' & pol' & Y' & -> & Hp & Hpol & HX & Hq & Hpol' & HY).
  cbn [relabel]. rewrite !last_write_sphere by assumption.
  rewrite !transfer_parity by assumption.
  rewrite !(coef_swap_rows a lmax) by (assumption || lia).
  rewrite !sign_pow_add. cbn [Nat.sub].
  destruct p' as [| [| p']]; [| | lia]; (destruct q' as [| [| q']]; [| | lia]);
    cbn [Nat.sub];
    repeat case_decide; try reflexivity; try (exfalso; lia); f_equal; f_equal; f_equal.
  all: try (apply sign_pow_parity; rewrite !Z.even_add;
            destruct (Z.even m), (Z.even u), (Z.even n), (Z.even v),
                     (Z.even (cross_pol pol pol')); reflexivity).
  rewrite sign_pow_even, cmul_1_l; [reflexivity |].
  rewrite Z.even_add. now destruct (Z.even (n + v + cross_pol pol pol')).
Qed.

Lemma iterations_two (p0 p1 : Rl * Rl * Rl) lmax :
  iterations [p0; p1] lmax =
  map (fun rs => Iteration 0 1 (separation p0 p1) (fst rs) (snd rs)) (mode_pairs lmax).
Proof. unfold iterations, pairs. simpl. now rewrite app_nil_r. Qed.

(** The operator from the matrix that the loops leave. *)
Lemma sphere_from_loops miepy f positions a k Na lmax log im :
  let sh := cluster_shape (length positions) (rmax_of lmax) in
  binds_helpers miepy f -> shape a = [Na; 2%nat; lmax] ->
  particle_loops miepy positions (Z.of_nat lmax) k (sphere_stmts a) (np_zeros sh)
    = (log, OK im) ->
  shape im = sh ->
  exists T, sphere_cluster_tmatrix miepy positions a k = (log, OK T) /\
    wf T /\ shape T = sh /\
    forall l, in_range sh l ->
      entry T l = cadd (entry (identity_tensor (length positions) (rmax_of lmax)) l)
                       (entry im l).
Proof.
  intros sh Hb Hsh Him Hshim.
  destruct (np_add_same_shape (identity_tensor (length positions) (rmax_of lmax)) im)
    as (T & HT & HshT & HwfT & Hent); [now rewrite Hshim |].
  exists T. unfold sphere_cluster_tmatrix.
  rewrite (shape_last_3 a _ _ _ Hsh), mbind_lift_OK.
  rewrite (binds_lmax_to_rmax miepy f _ Hb), mbind_lift_OK.
  rewrite to_dim_rmax, mbind_lift_OK.
  fold sh. rewrite (mbind_OK _ _ _ _ [] (OK T) Him) by (now rewrite HT).
  rewrite app_nil_r. repeat split; assumption.
Qed.

Lemma entry_identity_relabel rmax l :
  in_range (cluster_shape 2 rmax) l ->
  entry (identity_tensor 2 rmax) (relabel l) = entry (identity_tensor 2 rmax) l.
Proof.
  intros H. apply in_range_cluster in H
    as (i & a & r & j & c & s & -> & Hi & Ha & Hr & Hj & Hc & Hs).
  cbn [relabel]. rewrite !entry_identity by (assumption || lia).
  destruct (decide (i = j /\ a = c /\ r = s)) as [(-> & -> & ->) | Hne].
  - now rewrite decide_True.
  - rewrite decide_False; [reflexivity |]. intros (E & -> & ->). apply Hne.
    repeat split. lia.
Qed.

End Relabelling_facts.

(** X3.  On a package that binds the names the assembler looks up: two
    particles, and the same two with their labels exchanged (the rows of
    the positions and of the coefficients swapped).  Where the
    translation operator satisfies the parity relation between the two
    opposite separations, the operator of the exchanged pair is the operator
    of the pair with the particle labels exchanged: in particular its
    coupling block of particle 0 with particle 1 is the other's block of
    particle 1 with particle 0. *)
Theorem exchanged_pair_gives_relabelled_operator {num : Numerics}
    (miepy : pyobj) (f : translation) (p0 p1 : Rl * Rl * Rl)
    (a : ndarray) (k : K) (lmax : nat) :
  binds_helpers miepy f ->
  wf a -> shape a = [2%nat; 2%nat; lmax] ->
  parity_contract f k (separation p0 p1) (separation p1 p0) ->
  exists T T',
    outcome (sphere_cluster_tmatrix miepy [p0; p1] a k) = OK T /\
    outcome (sphere_cluster_tmatrix miepy [p1; p0] (swap_rows a) k) = OK T' /\
    shape T' = shape T /\
    (forall l, in_range (cluster_shape 2 (rmax_of lmax)) l ->
       entry T' l = entry T (relabel l)) /\
    (forall pol r pol' s,
       (pol < 2)%nat -> (r < rmax_of lmax)%nat -> (pol' < 2)%nat -> (s < rmax_of lmax)%nat ->
       entry T' [0; pol; r; 1; pol'; s]%nat = entry T [1; pol; r; 0; pol'; s]%nat /\
       entry T' [1; pol; r; 0; pol'; s]%nat = entry T [0; pol; r; 1; pol'; s]%nat).
Proof.
  intros Hb Hwf Hsh Hpar.
  set (sh := cluster_shape 2 (rmax_of lmax)).
  set (L := Z.of_nat lmax).
  destruct (loops_inv miepy f [p0; p1] L k (sphere_stmts a)
              (sphere_it_writes a) sh (fun _ => True) (np_zeros sh) Hb)
    as (im1 & H1 & _ & Hwf1 & Hsh1);
    [ intros; now apply (sphere_resolves [p0; p1] a 2 lmax)
    | trivial | trivial | apply wf_zeros | reflexivity |].
  destruct (loops_inv miepy f [p1; p0] L k (sphere_stmts (swap_rows a))
              (sphere_it_writes (swap_rows a)) sh (fun _ => True) (np_zeros sh) Hb)
    as (im2 & H2 & _ & Hwf2 & Hsh2);
    [ intros; now apply (sphere_resolves [p1; p0] (swap_rows a) 2 lmax);
      try apply wf_swap_rows; try (unfold swap_rows; now rewrite shape_tabulate)
    | trivial | trivial | apply wf_zeros | reflexivity |].
  assert (forall l, in_range sh l -> entry im2 l = entry im1 (relabel l)) as Hrel.
  { pose (R := fun t1 t2 : ndarray =>
                 wf t1 /\ wf t2 /\ shape t1 = sh /\ shape t2 = sh /\
                 forall l, in_range sh l -> entry t2 l = entry t1 (relabel l)).
    pose (Q := fun it1 it2 : iteration =>
                 it1 ∈ iterations [p0; p1] L /\ it2 ∈ iterations [p1; p0] L /\
                 exists rnm svu,
                   it1 = Iteration 0 1 (separation p0 p1) rnm svu /\
                   it2 = Iteration 0 1 (separation p1 p0) rnm svu).
    destruct (for_each_rel Q R (fun _ _ => True)
                (iterations [p0; p1] L) (iterations [p1; p0] L)
                (iteration_body miepy k (sphere_stmts a))
                (iteration_body miepy k (sphere_stmts (swap_rows a)))
                (np_zeros sh) (np_zeros sh))
      as (g1 & g2 & s1 & s2 & K1 & K2 & _ & HR); [trivial | trivial | | | |].
    - intros it1 it2 t1 t2 (Hit1 & Hit2 & rnm & svu & E1 & E2) (Hw1 & Hw2 & Hs1 & Hs2 & Hr).
      pose proof (sphere_resolves [p0; p1] a 2 lmax it1) as Hres1.
      pose proof (sphere_resolves [p1; p0] (swap_rows a) 2 lmax it2) as Hres2.
      pose proof (iteration_bounds _ _ _ Hit1) as Hbd.
      rewrite (iteration_body_writes miepy f k (sphere_stmts a) it1 t1 sh
                 (sphere_it_writes a it1) Hb Hs1)
        by (intros; apply Hres1; (assumption || (simpl; lia))).
      rewrite (iteration_body_writes miepy f k (sphere_stmts (swap_rows a)) it2 t2 sh
                 (sphere_it_writes (swap_rows a) it2) Hb Hs2)
        by (intros; apply Hres2;
            first [ apply wf_swap_rows
                  | unfold swap_rows; now rewrite shape_tabulate
                  | assumption | simpl; lia ]).
      do 4 eexists. split; [reflexivity |]. split; [reflexivity |]. split; [trivial |].
      subst it1 it2. cbn [it_rnm it_svu it_sep it_i it_j] in *.
      destruct (skipped rnm svu); [repeat split; assumption |].
      unfold sphere_it_writes in *. cbn [it_rnm it_svu it_sep it_i it_j] in *.
      destruct rnm as [[r n] m], svu as [[s v] u].
      specialize (Hpar m n u v).
      destruct (separation p0 p1) as [[r_ji theta_ji] phi_ji].
      destruct (separation p1 p0) as [[r_ij theta_ij] phi_ij].
      cbv zeta. rewrite Hpar. cbn [fst snd].
      set (AB := f m n u v r_ji theta_ji phi_ji k outgoing).
      destruct Hbd as (_ & (Hn & _ & _) & (Hv & _ & _) & _).
      repeat split.
      + now apply wf_apply_writes.
      + now apply wf_apply_writes.
      + now rewrite shape_apply_writes.
      + now rewrite shape_apply_writes.
      + intros l Hl.
        rewrite !entry_apply_writes; try assumption.
        * rewrite (last_write_relabelled a lmax (rmax_of lmax)) by (assumption || lia).
          now rewrite Hr.
        * rewrite Hs1. eapply resolves_in_range.
          apply (Hres1 (fst AB) (snd AB)); (assumption || (simpl; lia)).
        * rewrite Hs1. now apply in_range_relabel.
        * rewrite Hs2. eapply resolves_in_range.
          apply (Hres2 (cmul (sign_pow (n + v)) (fst AB))
                       (cmul (sign_pow (n + v + 1)) (snd AB)));
            first [ apply wf_swap_rows
                  | unfold swap_rows; now rewrite shape_tabulate
                  | assumption | simpl; lia ].
        * now rewrite Hs2.
    - rewrite !iterations_two. apply Forall2_fmap, Forall2_same.
      intros [rnm svu] Hrs. unfold Q. cbn [fst snd]. rewrite !iterations_two.
      split; [apply list_elem_of_fmap; exists (rnm, svu); now split |].
      split; [apply list_elem_of_fmap; exists (rnm, svu); now split |].
      now exists rnm, svu.
    - repeat split; try apply wf_zeros.
      intros l _. now rewrite !entry_zeros.
    - rewrite particle_loops_flat in H1, H2
        by (eapply binds_resolve_modes; eassumption).
      rewrite K1 in H1. rewrite K2 in H2.
      injection H1 as _ <-. injection H2 as _ <-.
      apply HR. }
  destruct (sphere_from_loops miepy f [p0; p1] a k 2 lmax _ im1 Hb Hsh H1 Hsh1)
    as (T & HT & HwfT & HshT & HentT).
  destruct (sphere_from_loops miepy f [p1; p0] (swap_rows a) k 2 lmax _ im2 Hb
              ltac:(unfold swap_rows; now rewrite shape_tabulate) H2 Hsh2)
    as (T' & HT' & HwfT' & HshT' & HentT').
  exists T, T'. rewrite HT, HT'.
  assert (forall l, in_range sh l -> entry T' l = entry T (relabel l)) as Hall.
  { intros l Hl. rewrite HentT' by assumption.
    rewrite HentT by now apply in_range_relabel.
    cbn [length]. rewrite entry_identity_relabel by assumption.
    now rewrite Hrel. }
  split; [reflexivity |]. split; [reflexivity |].
  split; [now rewrite HshT, HshT' |].
  split; [exact Hall |].
  intros pol r pol' s Hpol Hr Hpol' Hs. split.
  - apply (Hall [0; pol; r; 1; pol'; s]%nat).
    apply in_range_cluster. do 6 eexists. repeat split; try eassumption; lia.
  - apply (Hall [1; pol; r; 0; pol'; s]%nat).
    apply in_range_cluster. do 6 eexists. repeat split; try eassumption; lia.
Qed.

Lemma example_translation_parity :
  parity_contract (num := integer_numerics) example_translation 1
    (separation (num := integer_numerics) (0, 0, 1) (0, 0, 0))
    (separation (num := integer_numerics) (0, 0, 0) (0, 0, 1)).
Proof. intros m n u v. reflexivity. Qed.

Lemma exchanged_pair_gives_relabelled_operator_witness :
  exists T T',
    outcome (sphere_cluster_tmatrix (num := integer_numerics)
               (miepy_with_helpers example_translation)
               [(0, 0, 1); (0, 0, 0)] example_mie 1) = OK T /\
    outcome (sphere_cluster_tmatrix (num := integer_numerics)
               (miepy_with_helpers example_translation)
               [(0, 0, 0); (0, 0, 1)] (swap_rows example_mie) 1) = OK T' /\
    entry T' [0; 0; 1; 1; 1; 2]%nat = entry T [1; 0; 1; 0; 1; 2]%nat.
Proof.
  destruct (exchanged_pair_gives_relabelled_operator (num := integer_numerics)
    (miepy_with_helpers example_translation) example_translation
    (0, 0, 1) (0, 0, 0) example_mie 1 1%nat
    (miepy_with_helpers_binds _) eq_refl eq_refl example_translation_parity)
    as (T & T' & HT & HT' & _ & _ & Hblock).
  exists T, T'. split; [exact HT |]. split; [exact HT' |].
  apply (Hblock 0%nat 1%nat 1%nat 2%nat); unfold rmax_of; simpl; lia.
Defined.

(** ** The pruned loops reach every coupling entry *)

Lemma mode_index_surj lmax r :
  0 <= lmax -> 0 <= r < lmax * (lmax + 2) ->
  exists n m, (r, n, m) ∈ mode_indices lmax.
Proof.
  intros Hl Hr. pose proof (Z.sqrt_spec (r + 1) ltac:(lia)) as Hs.
  pose proof (Z.sqrt_nonneg (r + 1)) as Hn0.
  set (n := Z.sqrt (r + 1)) in *. cbv zeta in Hs.
  assert (1 <= n) by nia.
  assert (n <= lmax) by nia.
  exists n, (r + 1 - n * n - n). apply elem_of_mode_indices.
  unfold mode_index. repeat split; lia.
Qed.

Section Coverage.
Context {num : Numerics}.

Lemma sphere_stmts_targets a i j r n m s v u tA tB :
  map fst (sphere_stmts a i j r n m s v u tA tB) =
  map fst (particle_stmts i j r n m s v u tA tB).
Proof. reflexivity. Qed.

Lemma particle_stmts_targets i j r n m s v u (tA tB : C) pol pol' :
  (pol < 2)%nat -> (pol' < 2)%nat ->
  let targets := map fst (particle_stmts i j r n m s v u tA tB) in
  [i; Z.of_nat pol; r; j; Z.of_nat pol'; s] ∈ targets /\
  [j; Z.of_nat pol; r; i; Z.of_nat pol'; s] ∈ targets /\
  [i; Z.of_nat pol; s - 2 * u; j; Z.of_nat pol'; r - 2 * m] ∈ targets /\
  [j; Z.of_nat pol; s - 2 * u; i; Z.of_nat pol'; r - 2 * m] ∈ targets.
Proof.
  intros Hpol Hpol' targets. unfold targets, particle_stmts.
  destruct pol as [| [| pol]]; [| | lia];
    (destruct pol' as [| [| pol']]; [| | lia]);
    repeat split; apply list_elem_of_In; cbn; tauto.
Qed.

End Coverage.

(** X4.  The guard prunes calls, not entries: every entry of the operator
    that couples two different particles is the target of an assignment in
    some iteration that passes the guard, in both assemblers - as a direct
    placement [(r, s)] where [r <= s - 2u], as a conjugate placement of the
    mode pair [(v, -u)], [(n, -m)] otherwise. *)
Theorem every_coupling_entry_is_assigned {num : Numerics}
    (positions : list (Rl * Rl * Rl)) (a : ndarray) (lmax i pol X j pol' Y : nat) :
  (i < length positions)%nat -> (j < length positions)%nat -> i <> j ->
  (pol < 2)%nat -> (pol' < 2)%nat -> (X < rmax_of lmax)%nat -> (Y < rmax_of lmax)%nat ->
  exists it,
    it ∈ iterations positions (Z.of_nat lmax) /\
    skipped (it_rnm it) (it_svu it) = false /\
    forall tA tB,
      let '(r, n, m) := it_rnm it in
      let '(s, v, u) := it_svu it in
      map Z.of_nat [i; pol; X; j; pol'; Y]
        ∈ map fst (sphere_stmts a (Z.of_nat (it_i it)) (Z.of_nat (it_j it))
                     r n m s v u tA tB) /\
      map Z.of_nat [i; pol; X; j; pol'; Y]
        ∈ map fst (particle_stmts (Z.of_nat (it_i it)) (Z.of_nat (it_j it))
                     r n m s v u tA tB).
Proof.
  intros Hi Hj Hij Hpol Hpol' HX HY.
  pose proof (rmax_of_Z lmax) as Hrmax.
  destruct (mode_index_surj (Z.of_nat lmax) (Z.of_nat X)) as (n & m & Hnm); [lia | lia |].
  destruct (mode_index_surj (Z.of_nat lmax) (Z.of_nat Y)) as (v & u & Hvu); [lia | lia |].
  pose proof Hnm as Hnm'. pose proof Hvu as Hvu'.
  apply elem_of_mode_indices in Hnm' as (Hn & Hm & EX).
  apply elem_of_mode_indices in Hvu' as (Hv & Hu & EY).
  destruct (lookup_lt_is_Some_2 positions i Hi) as [pi Hpi].
  destruct (lookup_lt_is_Some_2 positions j Hj) as [pj Hpj].
  assert ((mode_index v (- u), v, - u) ∈ mode_indices (Z.of_nat lmax)) as Hcv
    by (apply elem_of_mode_indices; repeat split; lia).
  assert ((mode_index n (- m), n, - m) ∈ mode_indices (Z.of_nat lmax)) as Hcn
    by (apply elem_of_mode_indices; repeat split; lia).
  cbn [map]. rewrite EX, EY.
  destruct (Z_le_gt_dec (mode_index n m) (mode_index v u - 2 * u)) as [Hg | Hg];
    destruct (Nat.lt_ge_cases i j) as [Hlt | Hge].
  - exists (Iteration i j (separation pi pj) (mode_index n m, n, m) (mode_index v u, v, u)).
    split; [apply iterations_elem_of; (assumption || lia || (rewrite EX in Hnm; assumption)
                                       || (rewrite EY in Hvu; assumption)) |].
    split; [now apply skipped_false |].
    intros tA tB. cbn [it_rnm it_svu it_i it_j]. rewrite sphere_stmts_targets.
    split; apply (particle_stmts_targets _ _ _ n m _ v u tA tB pol pol' Hpol Hpol').
  - exists (Iteration j i (separation pj pi) (mode_index n m, n, m) (mode_index v u, v, u)).
    split; [apply iterations_elem_of; (assumption || lia || (rewrite EX in Hnm; assumption)
                                       || (rewrite EY in Hvu; assumption)) |].
    split; [now apply skipped_false |].
    intros tA tB. cbn [it_rnm it_svu it_i it_j]. rewrite sphere_stmts_targets.
    split; apply (particle_stmts_targets _ _ _ n m _ v u tA tB pol pol' Hpol Hpol').
  - exists (Iteration i j (separation pi pj)
              (mode_index v (- u), v, - u) (mode_index n (- m), n, - m)).
    split; [apply iterations_elem_of; (assumption || lia) |].
    split; [apply skipped_false; rewrite mode_index_conj in *;
            replace (- - m) with m by lia; unfold mode_index in *; lia |].
    intros tA tB. cbn [it_rnm it_svu it_i it_j]. rewrite sphere_stmts_targets.
    pose proof (particle_stmts_targets (Z.of_nat i) (Z.of_nat j)
                  (mode_index v (- u)) v (- u) (mode_index n (- m)) n (- m)
                  tA tB pol pol' Hpol Hpol') as (_ & _ & H3 & _).
    replace (mode_index n (- m) - 2 * - m) with (mode_index n m) in H3
      by (unfold mode_index; lia).
    replace (mode_index v (- u) - 2 * - u) with (mode_index v u) in H3
      by (unfold mode_index; lia).
    split; exact H3.
  - exists (Iteration j i (separation pj pi)
              (mode_index v (- u), v, - u) (mode_index n (- m), n, - m)).
    split; [apply iterations_elem_of; (assumption || lia) |].
    split; [apply skipped_false; rewrite mode_index_conj in *;
            replace (- - m) with m by lia; unfold mode_index in *; lia |].
    intros tA tB. cbn [it_rnm it_svu it_i it_j]. rewrite sphere_stmts_targets.
    pose proof (particle_stmts_targets (Z.of_nat j) (Z.of_nat i)
                  (mode_index v (- u)) v (- u) (mode_index n (- m)) n (- m)
                  tA tB pol pol' Hpol Hpol') as (_ & _ & _ & H4).
    replace (mode_index n (- m) - 2 * - m) with (mode_index n m) in H4
      by (unfold mode_index; lia).
    replace (mode_index v (- u) - 2 * - u) with (mode_index v u) in H4
      by (unfold mode_index; lia).
    split; exact H4.
Qed.

Lemma every_coupling_entry_is_assigned_witness :
  exists it,
    it ∈ iterations (num := integer_numerics) two_particles (Z.of_nat 1) /\
    skipped (it_rnm it) (it_svu it) = false.
Proof.
  destruct (every_coupling_entry_is_assigned (num := integer_numerics)
    two_particles example_mie 1 1 0 2 0 1 0
    ltac:(simpl; lia) ltac:(simpl; lia) ltac:(lia) ltac:(lia) ltac:(lia)
    ltac:(unfold rmax_of; simpl; lia) ltac:(unfold rmax_of; simpl; lia))
    as (it & Hit & Hsk & _).
  exists it. split; assumption.
Defined.

(** ** Particles that do not couple *)

Section Uncoupled.
Context {num : Numerics}.

Add Ring C_as_ring_uncoupled : C_ring.




Lemma iterations_single (p : Rl * Rl * Rl) lmax : iterations [p] lmax = [].
Proof. reflexivity. Qed.

End Uncoupled.



(** X7.  One particle, in the general assembler and in the arithmetic of
    the model: scalars of a commutative ring, that is a T-matrix whose
    entries are finite (for an infinite or NaN entry [0 * inf] is NaN in the
    contraction of line 135).  On a package that binds the names the
    assembler looks up, whatever the T-matrix of fitting shape,
    [particle_cluster_tmatrix] returns the identity without a call of the
    translation operator, and [solve_particle_cluster] returns the source
    unchanged where [tensorsolve] returns the one solution of the
    system. *)
Theorem single_particle_general_is_identity {num : Numerics}
    (tensorsolve : ndarray -> ndarray -> result ndarray)
    (miepy : pyobj) (f : translation) (p : Rl * Rl * Rl)
    (tmatrix p_src : ndarray) (k : K) (lmax : nat) :
  binds_helpers miepy f ->
  shape tmatrix = [1%nat; 2%nat; rmax_of lmax; 2%nat; rmax_of lmax] ->
  let T := identity_tensor 1 (rmax_of lmax) in
  particle_cluster_tmatrix miepy [p] tmatrix k = ([], OK T) /\
  (wf p_src -> shape p_src = [1; 2; rmax_of lmax]%nat ->
   tensorsolve_exact tensorsolve T p_src ->
   solve_particle_cluster tensorsolve miepy [p] tmatrix p_src k = ([], OK p_src)).
Proof.
  intros Hb Hsh T.
  assert (particle_cluster_tmatrix miepy [p] tmatrix k = ([], OK T)) as HT.
  { destruct (particle_cluster_tmatrix_inv miepy f [p] tmatrix k lmax
                (fun im => forall l, entry im l = c0) Hb Hsh)
      as (im & T' & HT' & Hz & _ & _ & HwfT & HshT & Hent).
    - intros it tA tB im0 Hit. rewrite iterations_single in Hit. inversion Hit.
    - intros l. apply entry_zeros.
    - rewrite HT'. change (cluster_calls [p] (Z.of_nat lmax) k) with (@nil call).
      do 2 f_equal.
      apply array_ext; [assumption | apply wf_tabulate | assumption |].
      intros l Hl. rewrite HshT in Hl.
      apply in_range_cluster in Hl
        as (i & a & b & j & e & g & -> & Hi & Ha & Hb' & Hj & He & Hg).
      rewrite Hent by assumption.
      rewrite csum_zero; [apply cadd_0_r |].
      intros cd _. rewrite Hz. apply cmul_0_l. }
  split; [exact HT |].
  intros Hwf Hshp Hexact. unfold solve_particle_cluster. rewrite HT, mbind_nil_OK.
  rewrite (Hexact p_src); [reflexivity | |].
  - repeat split; [assumption | now rewrite Hshp |].
    now apply tensordot_identity.
  - intros y (Hwfy & Hshy & Hy).
    rewrite <- Hy. symmetry. apply tensordot_identity; [assumption |].
    rewrite Hshy, Hshp. reflexivity.
Qed.

Lemma single_particle_general_is_identity_witness :
  particle_cluster_tmatrix (num := integer_numerics)
    (miepy_with_helpers example_translation) one_particle
    (diagonal_tmatrix example_mie 1 1) 1
  = ([], OK (identity_tensor 1 (rmax_of 1))).
Proof.
  exact (proj1 (single_particle_general_is_identity (num := integer_numerics)
    integer_tensorsolve (miepy_with_helpers example_translation) example_translation
    (0, 0, 0) (diagonal_tmatrix example_mie 1 1) example_source 1 1%nat
    (miepy_with_helpers_binds _) eq_refl)).
Defined.

(** ** Names are looked up when they are used *)

(** X8.  The assembler looks a name up when it reaches it.  On a package
    that binds [miepy.vsh.lmax_to_rmax] but not [miepy.mode_indices],
    [sphere_cluster_tmatrix] returns the identity for no particle or one
    particle, where the mode loops are never entered, and raises
    [AttributeError], before any call of the translation operator, for two
    or more particles. *)
Theorem names_are_looked_up_when_used {num : Numerics}
    (miepy vsh : pyobj) (positions : list (Rl * Rl * Rl))
    (a : ndarray) (k : K) (lmax : nat) :
  getattr miepy "vsh" = OK vsh ->
  getattr vsh "lmax_to_rmax" = OK (PyIntFun Lmax_to_rmax) ->
  getattr miepy "mode_indices" = Err AttributeError ->
  shape_last a = OK lmax ->
  ((length positions <= 1)%nat ->
   sphere_cluster_tmatrix miepy positions a k
   = ([], OK (identity_tensor (length positions) (rmax_of lmax)))) /\
  ((2 <= length positions)%nat ->
   sphere_cluster_tmatrix miepy positions a k = ([], Err AttributeError)).
Proof.
  intros Hvsh Hl2r Hmodes Hlast.
  assert (call_vsh miepy "lmax_to_rmax" (Z.of_nat lmax)
          = OK (Z.of_nat lmax * (Z.of_nat lmax + 2))) as Hcall.
  { unfold call_vsh. rewrite Hvsh. cbn [rbind OK]. now rewrite Hl2r. }
  unfold sphere_cluster_tmatrix.
  rewrite Hlast, mbind_lift_OK, Hcall, mbind_lift_OK, to_dim_rmax, mbind_lift_OK.
  split; intros HN.
  - destruct positions as [| p [| p' rest]]; [| | simpl in HN; lia].
    + change (particle_loops miepy [] (Z.of_nat lmax) k (sphere_stmts a)
                (np_zeros (cluster_shape (length (@nil (Rl * Rl * Rl))) (rmax_of lmax))))
        with (mret (np_zeros (cluster_shape 0 (rmax_of lmax)))).
      rewrite mbind_mret. cbn [length]. now rewrite identity_plus_zeros.
    + rewrite particle_loops_single, mbind_mret. cbn [length].
      now rewrite identity_plus_zeros.
  - destruct positions as [| p0 [| p1 rest]]; [simpl in HN; lia | simpl in HN; lia |].
    apply mbind_Err. unfold particle_loops. cbn [length seq].
    apply for_each_cons_Err. cbn [Nat.sub seq]. apply for_each_cons_Err.
    cbn [row lookup list_lookup]. rewrite !mbind_lift_OK.
    unfold mode_loops, resolve_modes. rewrite Hmodes. reflexivity.
Qed.

Lemma names_are_looked_up_when_used_witness :
  sphere_cluster_tmatrix (num := integer_numerics)
    (miepy_with_vsh_helpers example_translation) two_particles example_mie 1
  = ([], Err AttributeError).
Proof.
  refine (proj2 (names_are_looked_up_when_used (num := integer_numerics)
    (miepy_with_vsh_helpers example_translation)
    (miepy_vsh_with_helpers example_translation) two_particles example_mie 1 1%nat
    eq_refl eq_refl eq_refl eq_refl) _).
  simpl. lia.
Defined.

(** ** The operators in closed form *)

Section Closed_form_facts.
Context {num : Numerics}.
Add Ring C_as_ring_closed : C_ring.

Lemma apply_writes_app ws1 ws2 t :
  apply_writes (ws1 ++ ws2) t = apply_writes ws2 (apply_writes ws1 t).
Proof.
  revert t. induction ws1 as [| w ws1 IH]; intros t; [reflexivity |].
  cbn [app apply_writes]. apply IH.
Qed.

Lemma for_each_writes {A : Type} (l : list A) (body : A -> ndarray -> M ndarray)
    (logf : A -> list call) (w : A -> list write) sh im :
  (forall x t, x ∈ l -> shape t = sh -> body x t = (logf x, OK (apply_writes (w x) t))) ->
  shape im = sh ->
  for_each l body im = (concat (map logf l), OK (apply_writes (flat_map w l) im)).
Proof.
  revert im. induction l as [| x l IH]; intros im Hbody Him; [reflexivity |].
  cbn [for_each map concat flat_map]. rewrite apply_writes_app.
  eapply mbind_OK.
  - apply Hbody; [left | assumption].
  - apply IH; [| now rewrite shape_apply_writes].
    intros y t Hy. apply Hbody. now right.
Qed.

(** The loops as one list of writes. *)
Lemma loops_executed miepy f positions lmax k stmts
    (writes : iteration -> C -> C -> list write) sh im0 :
  binds_helpers miepy f ->
  (forall it tA tB, it ∈ iterations positions lmax ->
     let '(r, n, m) := it_rnm it in
     let '(s, v, u) := it_svu it in
     Forall2 (resolves sh)
       (stmts (Z.of_nat (it_i it)) (Z.of_nat (it_j it)) r n m s v u tA tB)
       (writes it tA tB)) ->
  shape im0 = sh ->
  particle_loops miepy positions lmax k stmts im0 =
    (cluster_calls positions lmax k,
     OK (apply_writes (executed_writes f k writes (iterations positions lmax)) im0)).
Proof.
  intros Hb Hres Hsh.
  rewrite particle_loops_flat by (eapply binds_resolve_modes; eassumption).
  unfold cluster_calls, executed_writes.
  apply (for_each_writes _ _ _ _ sh); [| assumption].
  intros it t Hit Ht.
  rewrite (iteration_body_writes miepy f k stmts it t sh (writes it) Hb Ht)
    by (intros; now apply Hres).
  destruct (skipped (it_rnm it) (it_svu it)); [reflexivity |].
  destruct (it_rnm it) as [[r n] m], (it_svu it) as [[s v] u],
           (it_sep it) as [[r_ji theta_ji] phi_ji].
  reflexivity.
Qed.

Lemma executed_in_range f k (writes : iteration -> C -> C -> list write) sh its :
  (forall it tA tB, it ∈ its -> Forall (fun w => in_range sh (fst w)) (writes it tA tB)) ->
  Forall (fun w => in_range sh (fst w)) (executed_writes f k writes its).
Proof.
  intros H. unfold executed_writes. apply Forall_forall. intros w Hw.
  apply list_elem_of_In, in_flat_map in Hw as (it & Hit & Hw).
  apply list_elem_of_In in Hit.
  destruct (skipped (it_rnm it) (it_svu it)); [destruct Hw |].
  destruct (it_rnm it) as [[r n] m], (it_svu it) as [[s v] u],
           (it_sep it) as [[r_ji theta_ji] phi_ji].
  eapply Forall_forall in H; [exact H | eassumption |].
  apply list_elem_of_In. exact Hw.
Qed.

Lemma last_write_flat_map_inv {A : Type} (w : A -> list write) (its : list A) l y :
  last_write (flat_map w its) l = Some y ->
  exists it, it ∈ its /\ last_write (w it) l = Some y.
Proof.
  induction its as [| x its IH]; cbn [flat_map]; [discriminate |].
  rewrite last_write_app.
  destruct (last_write (flat_map w its) l) as [y' |].
  - intros [= <-]. destruct IH as (it & Hit & H); [reflexivity |].
    exists it. split; [now right | assumption].
  - intros H. exists x. split; [left | assumption].
Qed.

Lemma last_write_flat_map_is_Some {A : Type} (w : A -> list write) (its : list A) l :
  (exists it, it ∈ its /\ is_Some (last_write (w it) l)) ->
  is_Some (last_write (flat_map w its) l).
Proof.
  induction its as [| x its IH]; intros (it & Hit & H).
  - inversion Hit.
  - cbn [flat_map]. rewrite last_write_app.
    destruct (last_write (flat_map w its) l) as [y' |] eqn:E; [eauto |].
    apply list_elem_of_In in Hit. destruct Hit as [<- | Hit]; [assumption |].
    destruct IH as [y Hy]; [| discriminate].
    exists it. split; [now apply list_elem_of_In | assumption].
Qed.

Lemma last_write_flat_map {A : Type} (w : A -> list write) (its : list A) l V :
  (forall it y, it ∈ its -> last_write (w it) l = Some y -> y = V) ->
  (exists it, it ∈ its /\ is_Some (last_write (w it) l)) ->
  last_write (flat_map w its) l = Some V.
Proof.
  intros Hval Hex. destruct (last_write_flat_map_is_Some w its l Hex) as [y Hy].
  rewrite Hy. f_equal.
  apply last_write_flat_map_inv in Hy as (it & Hit & Hy). eauto.
Qed.


Lemma mode_index_to_nat_inj lmax n m n' m' :
  1 <= n <= lmax -> - n <= m <= n -> 1 <= n' <= lmax -> - n' <= m' <= n' ->
  Z.to_nat (mode_index n m) = Z.to_nat (mode_index n' m') -> n = n' /\ m = m'.
Proof.
  intros Hn Hm Hn' Hm' E.
  pose proof (mode_index_bounds lmax n m Hn Hm).
  pose proof (mode_index_bounds lmax n' m' Hn' Hm').
  apply mode_index_inj; lia.
Qed.

(** The one value that the iterations store in an entry of the coupling
    matrix of [particle_cluster_tmatrix]. *)
Lemma coupling_last_write f positions (lmax : nat) k p q pol pol' pi pj x n m y v u :
  (p < length positions)%nat -> (q < length positions)%nat -> p <> q ->
  (pol < 2)%nat -> (pol' < 2)%nat ->
  positions !! Nat.min p q = Some pi -> positions !! Nat.max p q = Some pj ->
  (x, n, m) ∈ mode_indices (Z.of_nat lmax) -> (y, v, u) ∈ mode_indices (Z.of_nat lmax) ->
  last_write (executed_writes f k particle_it_writes (iterations positions (Z.of_nat lmax)))
             [p; pol; Z.to_nat x; q; pol'; Z.to_nat y]
  = Some (coupling f k (separation pi pj) (bool_decide (p < q)%nat) pol pol' n m v u).
Proof.
  intros Hp Hq Hpq Hpol Hpol' Hpi Hpj Hx Hy.
  apply elem_of_mode_indices in Hx as (Hn & Hm & ->).
  apply elem_of_mode_indices in Hy as (Hv & Hu & ->).
  unfold executed_writes. apply last_write_flat_map.
  - intros it val Hit Hval.
    pose proof (iteration_bounds _ _ _ Hit) as Hbd.
    apply elem_of_iterations in Hit as (_ & _ & _ & pi' & pj' & Hpi' & Hpj' & Hsep).
    destruct (skipped (it_rnm it) (it_svu it)) eqn:Hsk; [discriminate |].
    unfold particle_it_writes in Hval.
    destruct (it_rnm it) as [[r n'] m'], (it_svu it) as [[s v'] u'],
             (it_sep it) as [[r_ji theta_ji] phi_ji].
    destruct Hbd as (Hij & (Hn' & Hm' & ->) & (Hv' & Hu' & ->) & _).
    apply skipped_false in Hsk. rewrite mode_index_conj in Hsk.
    rewrite last_write_particle in Hval by assumption.
    rewrite !mode_index_conj in Hval.
    repeat case_decide; try discriminate; injection Hval as <-;
      repeat match goal with
             | H : _ /\ _ |- _ => destruct H
             | H : Z.to_nat (mode_index _ _) = Z.to_nat (mode_index _ _) |- _ =>
                 apply (mode_index_to_nat_inj (Z.of_nat lmax)) in H; [| lia ..]
             end; subst;
      try (replace (Nat.min (it_j it) (it_i it)) with (it_i it) in Hpi by lia;
           replace (Nat.max (it_j it) (it_i it)) with (it_j it) in Hpj by lia);
      try (replace (Nat.min (it_i it) (it_j it)) with (it_i it) in Hpi by lia;
           replace (Nat.max (it_i it) (it_j it)) with (it_j it) in Hpj by lia);
      rewrite Hpi in Hpi'; rewrite Hpj in Hpj';
      injection Hpi' as <-; injection Hpj' as <-;
      rewrite <- Hsep; unfold coupling; rewrite ?Z.opp_involutive.
    all: first [rewrite bool_decide_true by lia | rewrite bool_decide_false by lia].
    all: match goal with
         | |- context [?a <=? ?b] => destruct (Z.leb_spec a b)
         end; try reflexivity; try lia.
    all: exfalso;
      assert (n' = v' /\ m' = - u') as [-> ->] by (apply mode_index_inj; lia);
      rewrite Z.opp_involutive in *; tauto.
  - set (i0 := Nat.min p q) in *. set (j0 := Nat.max p q) in *.
    assert ((i0 < j0 < length positions)%nat) as Hij by lia.
    assert ((p = i0 /\ q = j0) \/ (p = j0 /\ q = i0)) as Hor by lia.
    clearbody i0 j0.
    destruct (separation pi pj) as [[r_ji theta_ji] phi_ji] eqn:Hsep.
    destruct (Z.leb_spec (mode_index v (- u)) (mode_index n m)) as [Hc | Hc].
    + exists (Iteration i0 j0 (separation pi pj)
                (mode_index v (- u), v, - u) (mode_index n (- m), n, - m)).
      split.
      { apply iterations_elem_of; try assumption;
          apply elem_of_mode_indices; repeat split; lia. }
      cbn [it_rnm it_svu it_sep].
      rewrite (proj2 (skipped_false _ _ _ _ _ _))
        by (rewrite mode_index_conj, Z.opp_involutive; exact Hc).
      rewrite Hsep. unfold particle_it_writes. cbn [it_rnm it_svu it_i it_j].
      rewrite last_write_particle by assumption.
      rewrite !mode_index_conj, !Z.opp_involutive.
      repeat case_decide; eauto; exfalso; intuition congruence.
    + exists (Iteration i0 j0 (separation pi pj)
                (mode_index n m, n, m) (mode_index v u, v, u)).
      split.
      { apply iterations_elem_of; try assumption;
          apply elem_of_mode_indices; repeat split; lia. }
      cbn [it_rnm it_svu it_sep].
      rewrite (proj2 (skipped_false _ _ _ _ _ _))
        by (rewrite mode_index_conj; lia).
      rewrite Hsep. unfold particle_it_writes. cbn [it_rnm it_svu it_i it_j].
      rewrite last_write_particle by assumption.
      repeat case_decide; eauto; exfalso; intuition congruence.
Qed.


(** The coupling matrix that the loops of [particle_cluster_tmatrix] leave:
    zero in the blocks of one particle, the one stored value elsewhere. *)
Lemma coupling_matrix f positions (lmax : nat) k :
  let N := length positions in
  let rmax := rmax_of lmax in
  let im := apply_writes
              (executed_writes f k particle_it_writes (iterations positions (Z.of_nat lmax)))
              (np_zeros (cluster_shape N rmax)) in
  wf im /\ shape im = cluster_shape N rmax /\
  diagonal_blocks_zero N rmax im /\
  forall p q pol pol' pi pj x n m y v u,
    (p < N)%nat -> (q < N)%nat -> p <> q -> (pol < 2)%nat -> (pol' < 2)%nat ->
    positions !! Nat.min p q = Some pi -> positions !! Nat.max p q = Some pj ->
    (x, n, m) ∈ mode_indices (Z.of_nat lmax) -> (y, v, u) ∈ mode_indices (Z.of_nat lmax) ->
    entry im [p; pol; Z.to_nat x; q; pol'; Z.to_nat y]
    = coupling f k (separation pi pj) (bool_decide (p < q)%nat) pol pol' n m v u.
Proof.
  intros N rmax im.
  assert (Forall (fun w => in_range (cluster_shape N rmax) (fst w))
            (executed_writes f k particle_it_writes (iterations positions (Z.of_nat lmax))))
    as Hin.
  { apply executed_in_range. intros it tA tB Hit.
    pose proof (particle_resolves positions lmax it tA tB Hit) as Hres.
    destruct (it_rnm it) as [[? ?] ?], (it_svu it) as [[? ?] ?].
    eapply resolves_in_range. exact Hres. }
  split; [apply wf_apply_writes, wf_zeros |].
  split; [apply shape_apply_writes |]. split.
  - apply diagonal_blocks_kept;
      [apply wf_zeros | reflexivity | exact Hin | | intros ? ? ? ? ? ? ? ? ? ?; apply entry_zeros].
    unfold executed_writes. apply Forall_forall. intros w Hw.
    apply list_elem_of_In, in_flat_map in Hw as (it & Hit & Hw).
    apply list_elem_of_In, elem_of_iterations in Hit as (Hij & _).
    destruct (skipped (it_rnm it) (it_svu it)); [destruct Hw |].
    unfold particle_it_writes in Hw.
    destruct (it_rnm it) as [[r n] m], (it_svu it) as [[s v] u],
             (it_sep it) as [[r_ji theta_ji] phi_ji].
    eapply Forall_forall; [apply particle_writes_cross | apply list_elem_of_In, Hw]. lia.
  - intros p q pol pol' pi pj x n m y v u Hp Hq Hpq Hpol Hpol' Hpi Hpj Hx Hy.
    unfold im. rewrite entry_apply_writes; [| apply wf_zeros | exact Hin |].
    + rewrite (coupling_last_write f positions lmax k p q pol pol' pi pj x n m y v u)
        by assumption.
      reflexivity.
    + apply elem_of_mode_indices in Hx as (Hn & Hm & ->).
      apply elem_of_mode_indices in Hy as (Hv & Hu & ->).
      pose proof (mode_index_bounds (Z.of_nat lmax) n m Hn Hm).
      pose proof (mode_index_bounds (Z.of_nat lmax) v u Hv Hu).
      apply in_range_cluster. do 6 eexists.
      repeat split; try eassumption; unfold rmax, rmax_of; lia.
Qed.

(** The operator from the matrix that the loops leave. *)
Lemma particle_from_loops miepy f positions tmatrix k lmax log im :
  let N := length positions in
  let rmax := rmax_of lmax in
  let sh := cluster_shape N rmax in
  binds_helpers miepy f ->
  shape tmatrix = [N; 2%nat; rmax; 2%nat; rmax] ->
  particle_loops miepy positions (Z.of_nat lmax) k (fun i j => particle_stmts i j)
    (np_zeros sh) = (log, OK im) ->
  shape im = sh ->
  exists T, particle_cluster_tmatrix miepy positions tmatrix k = (log, OK T) /\
    wf T /\ shape T = sh /\
    forall i a b j e g,
      (i < N)%nat -> (a < 2)%nat -> (b < rmax)%nat ->
      (j < N)%nat -> (e < 2)%nat -> (g < rmax)%nat ->
      entry T [i; a; b; j; e; g] =
      cadd (entry (identity_tensor N rmax) [i; a; b; j; e; g])
           (csum (fun cd : nat * nat =>
                    cmul (entry im [i; a; b; j; fst cd; snd cd])
                         (entry tmatrix [j; fst cd; snd cd; e; g]))
                 (list_prod (seq 0 2) (seq 0 rmax))).
Proof.
  intros N rmax sh Hb Hsh Him Hshim.
  destruct (einsum_fit im tmatrix N rmax Hshim Hsh) as (t & Ht & Hwft & Hsht & Hentt).
  destruct (np_add_same_shape (identity_tensor N rmax) t)
    as (T & HT & HshT & HwfT & Hent); [now rewrite Hsht |].
  exists T. unfold particle_cluster_tmatrix.
  rewrite (shape_last_5 tmatrix _ _ _ _ _ Hsh), mbind_lift_OK.
  rewrite (binds_rmax_to_lmax miepy f _ Hb). unfold rmax. rewrite rmax_of_Z.
  rewrite rmax_to_Lmax_inverts by lia. rewrite mbind_lift_OK.
  fold rmax N sh. rewrite (mbind_OK _ _ _ _ [] (OK T) Him).
  - rewrite app_nil_r. repeat split; try assumption.
    intros i a b j e g Hi Ha Hb' Hj He Hg.
    rewrite Hent, Hentt by
      (assumption || (apply in_range_cluster; do 6 eexists; repeat split; eassumption)).
    reflexivity.
  - rewrite Ht, mbind_lift_OK, HT. reflexivity.
Qed.

End Closed_form_facts.

(** X9.  The operator of [sphere_cluster_tmatrix] in closed form, on a
    package that binds the names the assembler looks up.  The entry of the
    row [(p, pol, (n, m))] and the column [(q, pol', (v, u))] of two
    different particles is the transfer coefficient of [coupling] - that of
    the mode pair itself where the index of [(n, m)] is below that of
    [(v, -u)], that of the mode pair [(v, -u)], [(n, -m)] with its parity
    sign otherwise - times the Mie coefficient [a[q, pol', v - 1]] of the
    column. *)
Theorem sphere_coupling_in_closed_form {num : Numerics}
    (miepy : pyobj) (f : translation) (positions : list (Rl * Rl * Rl))
    (a : ndarray) (k : K) (Na lmax p q pol pol' : nat) (pi pj : Rl * Rl * Rl)
    (x n m y v u : Z) :
  binds_helpers miepy f ->
  wf a -> shape a = [Na; 2%nat; lmax] -> (length positions <= Na)%nat ->
  (p < length positions)%nat -> (q < length positions)%nat -> p <> q ->
  (pol < 2)%nat -> (pol' < 2)%nat ->
  positions !! Nat.min p q = Some pi -> positions !! Nat.max p q = Some pj ->
  (x, n, m) ∈ mode_indices (Z.of_nat lmax) -> (y, v, u) ∈ mode_indices (Z.of_nat lmax) ->
  exists T,
    outcome (sphere_cluster_tmatrix miepy positions a k) = OK T /\
    entry T [p; pol; Z.to_nat x; q; pol'; Z.to_nat y]
    = cmul (coupling f k (separation pi pj) (bool_decide (p < q)%nat) pol pol' n m v u)
           (coef a q pol' (v - 1)).
Proof.
  intros Hb Hwf Hsh HN Hp Hq Hpq Hpol Hpol' Hpi Hpj Hx Hy.
  destruct (loops_scaled miepy f positions a k Na lmax Hb Hwf Hsh HN)
    as (im1 & im2 & H1 & H2 & Hwf1 & Hwf2 & Hsh1 & Hsh2 & Hrel).
  rewrite (loops_executed miepy f positions (Z.of_nat lmax) k
             (fun i j => particle_stmts i j) particle_it_writes
             (cluster_shape (length positions) (rmax_of lmax))) in H2;
    [| assumption | intros; now apply particle_resolves | reflexivity].
  injection H2 as <-.
  destruct (sphere_from_loops miepy f positions a k Na lmax _ im1 Hb Hsh H1 Hsh1)
    as (T & HT & _ & _ & Hent).
  destruct (coupling_matrix f positions lmax k) as (_ & _ & _ & Hval).
  assert (in_range (cluster_shape (length positions) (rmax_of lmax))
            [p; pol; Z.to_nat x; q; pol'; Z.to_nat y]) as Hl.
  { pose proof Hx as Hx'. pose proof Hy as Hy'.
    apply elem_of_mode_indices in Hx' as (Hn & Hm & ->).
    apply elem_of_mode_indices in Hy' as (Hv & Hu & ->).
    pose proof (mode_index_bounds (Z.of_nat lmax) n m Hn Hm).
    pose proof (mode_index_bounds (Z.of_nat lmax) v u Hv Hu).
    apply in_range_cluster. do 6 eexists.
    repeat split; try eassumption; unfold rmax_of; lia. }
  exists T. rewrite HT. split; [reflexivity |].
  rewrite Hent, Hrel by assumption.
  rewrite (Hval p q pol pol' pi pj x n m y v u) by assumption.
  apply in_range_cluster in Hl as (? & ? & ? & ? & ? & ? & [= <- <- <- <- <- <-] & Hl).
  rewrite entry_identity by tauto.
  rewrite decide_False by tauto. rewrite cadd_0_l.
  cbn [column_coef]. now rewrite (mode_degree_index _ _ _ _ Hy).
Qed.

Lemma sphere_coupling_in_closed_form_witness :
  exists T,
    outcome (sphere_cluster_tmatrix (num := integer_numerics)
               (miepy_with_helpers example_translation) two_particles example_mie 1)
      = OK T /\
    entry T [0; 0; 0; 1; 1; 1]%nat
    = @cmul integer_numerics
        (coupling (num := integer_numerics) example_translation 1
           (separation (num := integer_numerics) (0, 0, 1) (0, 0, 0))
           (bool_decide (0 < 1)%nat) 0 1 1 (-1) 1 0)
        (coef example_mie 1 1 (1 - 1)).
Proof.
  apply (sphere_coupling_in_closed_form (num := integer_numerics)
    (miepy_with_helpers example_translation) example_translation two_particles
    example_mie 1 2%nat 1%nat 0%nat 1%nat 0%nat 1%nat (0, 0, 1) (0, 0, 0)
    0 1 (-1) 1 1 0 (miepy_with_helpers_binds _) eq_refl eq_refl);
    try (simpl; lia); try reflexivity;
    apply elem_of_mode_indices; unfold mode_index; lia.
Defined.

(** X10.  The operator of [particle_cluster_tmatrix] in closed form, on a
    package that binds the names the assembler looks up: the identity plus
    the contraction, over the polarization and the mode of the source
    particle, of a coupling matrix with the T-matrices.  The coupling
    matrix is zero in the blocks of one particle, and its entry for two
    different particles is the transfer coefficient of [coupling]. *)
Theorem particle_operator_in_closed_form {num : Numerics}
    (miepy : pyobj) (f : translation) (positions : list (Rl * Rl * Rl))
    (tmatrix : ndarray) (k : K) (lmax : nat) :
  let N := length positions in
  let rmax := rmax_of lmax in
  binds_helpers miepy f ->
  shape tmatrix = [N; 2%nat; rmax; 2%nat; rmax] ->
  exists im T,
    outcome (particle_cluster_tmatrix miepy positions tmatrix k) = OK T /\
    (forall i a b j e g,
       (i < N)%nat -> (a < 2)%nat -> (b < rmax)%nat ->
       (j < N)%nat -> (e < 2)%nat -> (g < rmax)%nat ->
       entry T [i; a; b; j; e; g] =
       cadd (if decide (i = j /\ a = e /\ b = g) then c1 else c0)
            (csum (fun cd : nat * nat =>
                     cmul (entry im [i; a; b; j; fst cd; snd cd])
                          (entry tmatrix [j; fst cd; snd cd; e; g]))
                  (list_prod (seq 0 2) (seq 0 rmax)))) /\
    diagonal_blocks_zero N rmax im /\
    (forall p q pol pol' pi pj x n m y v u,
       (p < N)%nat -> (q < N)%nat -> p <> q -> (pol < 2)%nat -> (pol' < 2)%nat ->
       positions !! Nat.min p q = Some pi -> positions !! Nat.max p q = Some pj ->
       (x, n, m) ∈ mode_indices (Z.of_nat lmax) ->
       (y, v, u) ∈ mode_indices (Z.of_nat lmax) ->
       entry im [p; pol; Z.to_nat x; q; pol'; Z.to_nat y]
       = coupling f k (separation pi pj) (bool_decide (p < q)%nat) pol pol' n m v u).
Proof.
  intros N rmax Hb Hsh.
  destruct (coupling_matrix f positions lmax k) as (Hwf & Hshim & Hdiag & Hval).
  destruct (particle_from_loops miepy f positions tmatrix k lmax _ _ Hb Hsh
              (loops_executed miepy f positions (Z.of_nat lmax) k
                 (fun i j => particle_stmts i j) particle_it_writes
                 (cluster_shape N rmax) (np_zeros (cluster_shape N rmax)) Hb
                 (fun it tA tB Hit => particle_resolves positions lmax it tA tB Hit)
                 eq_refl)
              Hshim)
    as (T & HT & _ & _ & Hent).
  eexists. exists T. rewrite HT. split; [reflexivity |].
  split; [| split; [exact Hdiag | exact Hval]].
  intros i a b j e g Hi Ha Hb' Hj He Hg.
  rewrite Hent by assumption. now rewrite entry_identity by assumption.
Qed.

Lemma particle_operator_in_closed_form_witness :
  exists T,
    outcome (particle_cluster_tmatrix (num := integer_numerics)
               (miepy_with_helpers example_translation) two_particles
               (diagonal_tmatrix example_mie 2 1) 1)
      = OK T.
Proof.
  destruct (particle_operator_in_closed_form (num := integer_numerics)
    (miepy_with_helpers example_translation) example_translation two_particles
    (diagonal_tmatrix example_mie 2 1) 1 1%nat (miepy_with_helpers_binds _) eq_refl)
    as (im & T & HT & _).
  exists T. exact HT.
Defined.

(** ** The number of calls of the translation operator *)

Section Counting.
Context {num : Numerics}.
















End Counting.



(** ** [forces.py]: the Levi-Civita symbol *)

Section Forces_facts.
Context {num : Numerics}.
Add Ring C_as_ring_forces : C_ring.

Lemma copp_copp (x : C) : copp (copp x) = x.
Proof. ring. Qed.

Lemma copp_0 : copp c0 = c0.
Proof. ring. Qed.

Lemma three_cases (i : Z) : 0 <= i < 3 -> i = 0 \/ i = 1 \/ i = 2.
Proof. lia. Qed.

Lemma levi_civita_value :
  levi_civita = OK (NdArray [3; 3; 3]%nat
    [c0; c0; c0;  c0; c0; c1;  c0; copp c1; c0;
     c0; c0; copp c1;  c0; c0; c0;  c1; c0; c0;
     c0; c1; c0;  copp c1; c0; c0;  c0; c0; c0]).
Proof. reflexivity. Qed.

End Forces_facts.

(** X12.  [levi_civita()] raises nothing and returns an array [eijk[3,3,3]]
    with [eijk[0,1,2] = 1] that changes sign when two of its subscripts are
    exchanged, keeps its value when the three are rotated, and is zero
    where two subscripts are equal: the Levi-Civita symbol. *)
Theorem levi_civita_is_antisymmetric {num : Numerics} (i j k : Z) :
  0 <= i < 3 -> 0 <= j < 3 -> 0 <= k < 3 ->
  exists eijk x,
    levi_civita = OK eijk /\ shape eijk = [3; 3; 3]%nat /\
    getitem eijk [0; 1; 2] = OK c1 /\
    getitem eijk [i; j; k] = OK x /\
    getitem eijk [j; i; k] = OK (copp x) /\
    getitem eijk [i; k; j] = OK (copp x) /\
    getitem eijk [j; k; i] = OK x /\
    (i = j \/ j = k \/ i = k -> x = c0).
Proof.
  intros Hi Hj Hk.
  eexists.
  apply three_cases in Hi as [-> | [-> | ->]];
  apply three_cases in Hj as [-> | [-> | ->]];
  apply three_cases in Hk as [-> | [-> | ->]];
  eexists; (split; [apply levi_civita_value |]);
  (split; [reflexivity |]); (split; [reflexivity |]);
  (split; [reflexivity |]);
  repeat match goal with
    | |- context [getitem ?e ?l] =>
        first [ change (getitem e l) with (@OK C c0)
              | change (getitem e l) with (@OK C c1)
              | change (getitem e l) with (@OK C (copp c1)) ]
    end;
  rewrite ?copp_copp, ?copp_0; repeat split; try reflexivity;
  try (intros [? | [? | ?]]; (discriminate || reflexivity)).
Qed.

Lemma levi_civita_is_antisymmetric_witness :
  exists eijk x,
    levi_civita (num := integer_numerics) = OK eijk /\ shape eijk = [3; 3; 3]%nat /\
    getitem eijk [0; 1; 2] = OK 1 /\
    getitem eijk [0; 1; 2] = OK x /\
    getitem eijk [1; 0; 2] = OK (- x) /\
    getitem eijk [0; 2; 1] = OK (- x) /\
    getitem eijk [1; 2; 0] = OK x /\
    (0 = 1 \/ 1 = 2 \/ 0 = 2 -> x = 0).
Proof.
  apply (levi_civita_is_antisymmetric (num := integer_numerics) 0 1 2); lia.
Defined.
